(** * chaos: elastic discs in a closed arena

    A shallow embedding of [chaos.py] (the physics core: [distance],
    [collisions], the [Ball] class and the placement loop of [main]).

    Python floats are read as real numbers, so every statement below is
    about exact real arithmetic; the one float operation of the engine that
    raises, the OverflowError of [a ** 2], is modelled in
    [collide_pair_checked], on which the statements about errors are made.
    Mutation of the balls is explicit state
    passing, the global list [balls] is a [list Ball] updated by index,
    Python exceptions are the [Raise] results of a small error monad, and
    the [random] module is a stream of raw draws threaded through a
    [World]. *)

From Stdlib Require Import Reals Lra Lia ZArith Psatz.
From stdpp Require Import base list strings.

Open Scope R_scope.

(** ** Module constants *)

Definition WIDTH : Z := 1000.
Definition HEIGHT : Z := 1000.
Definition FPS : Z := 60.
Definition ENTROPHY : nat := 10.

(** ** Python exceptions as results *)

Inductive PyErr : Type :=
| ZeroDivisionError
| OverflowError
| AssertionError
| IndexError
| ValueError
| OutOfFuel.   (* not an exception: a [while True] loop cut off by its fuel *)

Inductive res (A : Type) : Type :=
| Ok (a : A)
| Raise (e : PyErr).
Arguments Ok {A} a.
Arguments Raise {A} e.

#[global] Instance res_ret : MRet res := fun _ a => Ok a.
#[global] Instance res_bind : MBind res := fun _ _ k c =>
  match c with
  | Ok a => k a
  | Raise e => Raise e
  end.

(** Comparisons of reals are decided classically, as [Rlt_dec] and friends. *)
#[global] Instance Rlt_decision (a b : R) : Decision (a < b) := Rlt_dec a b.
#[global] Instance Rgt_decision (a b : R) : Decision (a > b) := Rgt_dec a b.
#[global] Instance Rle_decision (a b : R) : Decision (a <= b) := Rle_dec a b.
#[global] Instance Rge_decision (a b : R) : Decision (a >= b) := Rge_dec a b.
#[global] Instance Req_decision : EqDecision R := Req_dec_T.

(** Python's [/] on numbers: a zero divisor raises. *)
Definition pydiv (a b : R) : res R :=
  if decide (b = 0) then Raise ZeroDivisionError else Ok (a / b).

(** [math.atan2] on reals (no signed zeros). *)
Definition atan2 (b a : R) : R :=
  if decide (0 < a) then atan (b / a)
  else if decide (a < 0) then
    (if decide (0 <= b) then atan (b / a) + PI else atan (b / a) - PI)
  else if decide (0 < b) then PI / 2
  else if decide (b < 0) then - (PI / 2)
  else 0.

(** ** Geometry *)

(** [distance(p1, p2)] *)
Definition distance (p1 p2 : R * R) : R :=
  sqrt ((p1.1 - p2.1) ^ 2 + (p1.2 - p2.2) ^ 2).

(** ** The [Ball] class *)

Record Ball : Type := mkBall {
  ball_id : Z;            (* slot [id] *)
  radius : Z;
  color : Z * Z * Z * Z;
  v : R;
  angle : R;
  x : R;
  y : R
}.

(** Class attributes [Ball.R_MIN], [Ball.R_MAX], [Ball.V_MAX]. *)
Definition R_MIN : Z := 2.
Definition R_MAX : Z := (Z.min WIDTH HEIGHT / 4)%Z.
Definition V_MAX : Z := (FPS / 30)%Z.

(** Properties [m], [vx], [vy], [is_outside]. *)
Definition m (b : Ball) : R := IZR (radius b ^ 3).
Definition vx (b : Ball) : R := v b * cos (angle b).
Definition vy (b : Ball) : R := v b * sin (angle b).

Definition is_outside (b : Ball) : bool :=
  bool_decide (x b < 0) || bool_decide (x b > IZR WIDTH)
  || bool_decide (y b < 0) || bool_decide (y b > IZR HEIGHT).

(** [is_collide(self, ball)] *)
Definition is_collide (self ball : Ball) : bool :=
  bool_decide (distance (x self, y self) (x ball, y ball)
               <= IZR (radius self + radius ball)).

(** Field updates, as the assignments to [self.x], [self.angle], ... *)
Definition set_x (b : Ball) (a : R) : Ball :=
  mkBall (ball_id b) (radius b) (color b) (v b) (angle b) a (y b).
Definition set_y (b : Ball) (a : R) : Ball :=
  mkBall (ball_id b) (radius b) (color b) (v b) (angle b) (x b) a.
Definition set_v (b : Ball) (a : R) : Ball :=
  mkBall (ball_id b) (radius b) (color b) a (angle b) (x b) (y b).
Definition set_angle (b : Ball) (a : R) : Ball :=
  mkBall (ball_id b) (radius b) (color b) (v b) a (x b) (y b).

(** [Ball.move]: one step along the heading, with wall reflection. *)
Definition move (self : Ball) : Ball :=
  let x' := x self + v self * cos (angle self) in
  let y' := y self + v self * sin (angle self) in
  let '(self, x') :=
    if decide (x' - IZR (radius self) < 0 /\ cos (angle self) < 0)
    then (set_angle self (PI - angle self), x self)
    else if decide (x' + IZR (radius self) > IZR WIDTH /\ cos (angle self) > 0)
    then (set_angle self (PI - angle self), x self)
    else (self, x') in
  let '(self, y') :=
    if decide (y' - IZR (radius self) < 0 /\ sin (angle self) < 0)
    then (set_angle self (- angle self), y self)
    else if decide (y' + IZR (radius self) > IZR HEIGHT /\ sin (angle self) > 0)
    then (set_angle self (- angle self), y self)
    else (self, y') in
  set_y (set_x self x') y'.

(** ** The collision engine *)

(** The body of the double loop of [collisions] for one pair. *)
Definition collide_pair (ball1 ball2 : Ball) : res (Ball * Ball) :=
  let dx := x ball2 - x ball1 in
  let dy := y ball2 - y ball1 in
  let dist := sqrt (dx * dx + dy * dy) in
  let min_distance := IZR (radius ball1 + radius ball2) in
  if decide (dist < min_distance) then
    let '(dx, dy, dist) :=
      if decide (dist = 0) then (1, 0, 1) else (dx, dy, dist) in
    nx ← pydiv dx dist;
    ny ← pydiv dy dist;
    let overlap := min_distance - dist in
    let ball1 := set_x ball1 (x ball1 - overlap * nx * 0.5) in
    let ball1 := set_y ball1 (y ball1 - overlap * ny * 0.5) in
    let ball2 := set_x ball2 (x ball2 + overlap * nx * 0.5) in
    let ball2 := set_y ball2 (y ball2 + overlap * ny * 0.5) in
    let dvx := vx ball2 - vx ball1 in
    let dvy := vy ball2 - vy ball1 in
    let velocity_along_normal := dvx * nx + dvy * ny in
    if decide (velocity_along_normal > 0) then Ok (ball1, ball2)
    else
      let restitution := 1 in
      impulse ← pydiv (2 * velocity_along_normal) (m ball1 + m ball2);
      let vx1 := vx ball1 + impulse * m ball2 * nx * restitution in
      let vy1 := vy ball1 + impulse * m ball2 * ny * restitution in
      let vx2 := vx ball2 - impulse * m ball1 * nx * restitution in
      let vy2 := vy ball2 - impulse * m ball1 * ny * restitution in
      let ball1 := set_v ball1 (sqrt (vx1 ^ 2 + vy1 ^ 2)) in
      let ball2 := set_v ball2 (sqrt (vx2 ^ 2 + vy2 ^ 2)) in
      let ball1 := set_v ball1 (sqrt (vx1 ^ 2 + vy1 ^ 2)) in
      let ball1 := set_angle ball1 (atan2 vy1 vx1) in
      let ball2 := set_v ball2 (sqrt (vx2 ^ 2 + vy2 ^ 2)) in
      let ball2 := set_angle ball2 (atan2 vy2 vx2) in
      Ok (ball1, ball2)
  else Ok (ball1, ball2).

(** A [for] loop over a list of indices, threading the list of balls. *)
Fixpoint for_each {S A : Type} (body : S -> A -> res S) (l : list A) (s : S)
  : res S :=
  match l with
  | [] => Ok s
  | a :: l => s' ← body s a; for_each body l s'
  end.

(** [ball1, ball2 = balls[i], balls[j]], the pair body, and the write-back
    that in-place mutation of the two objects amounts to. *)
Definition pair_step (i : nat) (balls : list Ball) (j : nat)
  : res (list Ball) :=
  match balls !! i, balls !! j with
  | Some ball1, Some ball2 =>
      '(ball1, ball2) ← collide_pair ball1 ball2;
      Ok (<[j := ball2]> (<[i := ball1]> balls))
  | _, _ => Raise IndexError
  end.

(** [collisions()] over the global list. *)
Definition collisions (balls : list Ball) : res (list Ball) :=
  let n := length balls in
  for_each
    (fun balls i => for_each (pair_step i) (seq (i + 1) (n - (i + 1))) balls)
    (seq 0 n) balls.

(** One tick of the loop of [main]: move every ball, run the engine once,
    drop the balls that left the screen. *)
Definition tick (balls : list Ball) : res (list Ball) :=
  balls ← collisions (map move balls);
  Ok (filter (fun ball => negb (is_outside ball) = true) balls).

Fixpoint ticks (n : nat) (balls : list Ball) : res (list Ball) :=
  match n with
  | O => Ok balls
  | S n => balls ← tick balls; ticks n balls
  end.

(** ** Construction *)

(** The process-wide state a constructor call touches: the class counter
    [Ball.ID] and the generator of the [random] module, a stream of raw
    draws with a cursor. *)
Record World : Type := mkWorld {
  Ball_ID : Z;
  rng : nat -> Z;
  drawn : nat
}.

(** Computations that read and write the [World] and may raise; the
    world a raising call leaves behind is kept. *)
Definition M (A : Type) : Type := World -> res A * World.

#[global] Instance M_ret : MRet M := fun _ a w => (Ok a, w).
#[global] Instance M_bind : MBind M := fun _ _ k c w =>
  match c w with
  | (Ok a, w') => k a w'
  | (Raise e, w') => (Raise e, w')
  end.

Definition mraise {A : Type} (e : PyErr) : M A := fun w => (Raise e, w).

(** [assert cond] *)
Definition assert (cond : Prop) `{!Decision cond} : M unit :=
  if decide cond then mret tt else mraise AssertionError.

(** [self.id = Ball.ID; Ball.ID += 1] *)
Definition fresh_id : M Z := fun w =>
  (Ok (Ball_ID w), mkWorld (Ball_ID w + 1) (rng w) (drawn w)).

Definition next_draw : M Z := fun w =>
  (Ok (rng w (drawn w)), mkWorld (Ball_ID w) (rng w) (S (drawn w))).

(** [random.randint(a, b)]: an integer of [a..b], from one raw draw. *)
Definition randint (a b : Z) : M Z :=
  if decide (b < a)%Z then mraise ValueError
  else k ← next_draw; mret (a + k mod (b - a + 1))%Z.

(** [random.random()]: a multiple of 2^-53 in [0, 1). *)
Definition random : M R :=
  k ← next_draw; mret (IZR (k mod 2 ^ 53) / IZR (2 ^ 53)).

(** The values a caller may pass for [radius] and [angle]. *)
Inductive PyVal : Type :=
| PyNone
| PyBool (b : bool)
| PyInt (n : Z)
| PyFloat (r : R)
| PyStr (s : string).

(** [isinstance(val, int)], with the integer the value stands for
    ([bool] is a subclass of [int]). *)
Definition as_int (val : PyVal) : option Z :=
  match val with
  | PyBool b => Some (if b then 1 else 0)%Z
  | PyInt n => Some n
  | _ => None
  end.

(** [isinstance(val, (int, float))], with the number the value stands for. *)
Definition as_number (val : PyVal) : option R :=
  match val with
  | PyBool b => Some (if b then 1 else 0)
  | PyInt n => Some (IZR n)
  | PyFloat r => Some r
  | _ => None
  end.

(** [Ball.__init__(self, radius=None, angle=None)] *)
Definition Ball_init (radius_arg angle_arg : PyVal) : M Ball :=
  self_id ← fresh_id;
  self_radius ←
    match as_int radius_arg with
    | Some n => _ ← assert (R_MIN <= n <= R_MAX)%Z; mret n
    | None => randint R_MIN R_MAX
    end;
  c1 ← randint 0 255;
  c2 ← randint 0 255;
  c3 ← randint 0 255;
  c4 ← randint 0 255;
  u ← random;
  let self_v := u * IZR V_MAX in
  self_angle ←
    match as_number angle_arg with
    | Some a => _ ← assert (0 <= a <= 2 * PI); mret a
    | None => u ← random; mret (u * 2 * PI)
    end;
  self_x ← randint self_radius (WIDTH - self_radius);
  self_y ← randint self_radius (HEIGHT - self_radius);
  mret (mkBall self_id self_radius (c1, c2, c3, c4) self_v self_angle
          (IZR self_x) (IZR self_y)).

(** ** Placement *)

(** The [while True] loop of [main]: sample balls until one collides with
    none of the accepted ones ([for ... else]), then append it. *)
Fixpoint place_one (fuel : nat) (balls : list Ball) : M (list Ball) :=
  match fuel with
  | O => mraise OutOfFuel
  | S fuel =>
      new_ball ← Ball_init PyNone PyNone;
      if existsb (is_collide new_ball) balls
      then place_one fuel balls
      else mret (balls ++ [new_ball])
  end.

(** [for _ in range(entrophy)] around it. *)
Fixpoint place_all (fuel entrophy : nat) (balls : list Ball) : M (list Ball) :=
  match entrophy with
  | O => mret balls
  | S entrophy => balls ← place_one fuel balls; place_all fuel entrophy balls
  end.

(** The placement phase of [main(entrophy)], on the initially empty list. *)
Definition main_placement (fuel entrophy : nat) : M (list Ball) :=
  place_all fuel entrophy [].

(** ** Vocabulary of the statements

    Names for the intermediate values of one pair of [collisions], read off
    the loop body: they let the theorems speak of the normal, the overlap and
    the projected relative velocity of a pair. *)

(** [dist] as first computed, and [min_distance]. *)
Definition centre_dist (ball1 ball2 : Ball) : R :=
  sqrt ((x ball2 - x ball1) * (x ball2 - x ball1)
        + (y ball2 - y ball1) * (y ball2 - y ball1)).

Definition min_dist (ball1 ball2 : Ball) : R :=
  IZR (radius ball1 + radius ball2).

(** [(dx, dy, dist)] after the [dist == 0] substitution. *)
Definition contact (ball1 ball2 : Ball) : R * R * R :=
  if decide (centre_dist ball1 ball2 = 0) then (1, 0, 1)
  else (x ball2 - x ball1, y ball2 - y ball1, centre_dist ball1 ball2).

(** [(nx, ny)] *)
Definition normal (ball1 ball2 : Ball) : R * R :=
  let '(dx, dy, dist) := contact ball1 ball2 in (dx / dist, dy / dist).

(** [overlap] *)
Definition overlap_of (ball1 ball2 : Ball) : R :=
  let '(_, _, dist) := contact ball1 ball2 in min_dist ball1 ball2 - dist.

(** The pair after the four position assignments. *)
Definition corrected (ball1 ball2 : Ball) : Ball * Ball :=
  let '(nx, ny) := normal ball1 ball2 in
  let o := overlap_of ball1 ball2 in
  (set_y (set_x ball1 (x ball1 - o * nx * 0.5)) (y ball1 - o * ny * 0.5),
   set_y (set_x ball2 (x ball2 + o * nx * 0.5)) (y ball2 + o * ny * 0.5)).

(** [velocity_along_normal] *)
Definition approach (ball1 ball2 : Ball) : R :=
  let '(nx, ny) := normal ball1 ball2 in
  (vx ball2 - vx ball1) * nx + (vy ball2 - vy ball1) * ny.

(** [impulse] *)
Definition impulse_of (ball1 ball2 : Ball) : R :=
  2 * approach ball1 ball2 / (m ball1 + m ball2).

(** [(vx1, vy1)] and [(vx2, vy2)] *)
Definition velocity1 (ball1 ball2 : Ball) : R * R :=
  let '(nx, ny) := normal ball1 ball2 in
  (vx ball1 + impulse_of ball1 ball2 * m ball2 * nx * 1,
   vy ball1 + impulse_of ball1 ball2 * m ball2 * ny * 1).

Definition velocity2 (ball1 ball2 : Ball) : R * R :=
  let '(nx, ny) := normal ball1 ball2 in
  (vx ball2 - impulse_of ball1 ball2 * m ball1 * nx * 1,
   vy ball2 - impulse_of ball1 ball2 * m ball1 * ny * 1).

(** Speed and heading rewritten from a velocity vector. *)
Definition redirect (b : Ball) (vel : R * R) : Ball :=
  set_angle (set_v b (sqrt (vel.1 ^ 2 + vel.2 ^ 2))) (atan2 vel.2 vel.1).

(** The pair after the impulse response. *)
Definition bounced (ball1 ball2 : Ball) : Ball * Ball :=
  let '(c1, c2) := corrected ball1 ball2 in
  (redirect c1 (velocity1 ball1 ball2), redirect c2 (velocity2 ball1 ball2)).

(** Total momentum and kinetic energy of a pair, with the pseudo-mass. *)
Definition momentum (ball1 ball2 : Ball) : R * R :=
  (m ball1 * vx ball1 + m ball2 * vx ball2,
   m ball1 * vy ball1 + m ball2 * vy ball2).

Definition kinetic (ball1 ball2 : Ball) : R :=
  / 2 * m ball1 * v ball1 ^ 2 + / 2 * m ball2 * v ball2 ^ 2.

(** The balls the program builds: the radius is within the class bounds
    and the speed is not negative. *)
Definition wf_ball (b : Ball) : Prop :=
  (R_MIN <= radius b <= R_MAX)%Z /\ 0 <= v b.

(** What the loops of [collisions] keep true of the list. *)
Definition sound_list (n : nat) (balls : list Ball) : Prop :=
  Forall wf_ball balls /\ length balls = n.

(** The centre lies on the screen. *)
Definition inside (b : Ball) : Prop :=
  0 <= x b <= IZR WIDTH /\ 0 <= y b <= IZR HEIGHT.

(** ** The example scenario

    Two balls of radius 10 whose centres are 15 apart on a horizontal
    line, closing head-on at speed 5 each, and the same two balls after
    one pass of the engine. *)
Definition ballA : Ball := mkBall 0 10 (0, 0, 0, 0)%Z 5 0 100 100.
Definition ballB : Ball := mkBall 1 10 (0, 0, 0, 0)%Z 5 PI 115 100.
Definition ballA' : Ball := mkBall 0 10 (0, 0, 0, 0)%Z 5 PI 97.5 100.
Definition ballB' : Ball := mkBall 1 10 (0, 0, 0, 0)%Z 5 0 117.5 100.

(** ** [move] in the words of its description

    The candidate position, the two wall tests, each gated on the sign of
    the cosine or sine of the heading the ball has when [move] is called,
    and the ball [move] is described to leave. *)
Definition candidate (b : Ball) : R * R :=
  (x b + v b * cos (angle b), y b + v b * sin (angle b)).

Definition hits_side (b : Ball) : Prop :=
  ((candidate b).1 - IZR (radius b) < 0 /\ cos (angle b) < 0)
  \/ ((candidate b).1 + IZR (radius b) > IZR WIDTH /\ cos (angle b) > 0).

Definition hits_floor (b : Ball) : Prop :=
  ((candidate b).2 - IZR (radius b) < 0 /\ sin (angle b) < 0)
  \/ ((candidate b).2 + IZR (radius b) > IZR HEIGHT /\ sin (angle b) > 0).

#[global] Instance hits_side_dec (b : Ball) : Decision (hits_side b).
Proof. unfold hits_side. apply _. Defined.

#[global] Instance hits_floor_dec (b : Ball) : Decision (hits_floor b).
Proof. unfold hits_floor. apply _. Defined.

Definition move_spec (b : Ball) : Ball :=
  let heading := if decide (hits_side b) then PI - angle b else angle b in
  let heading := if decide (hits_floor b) then - heading else heading in
  mkBall (ball_id b) (radius b) (color b) (v b) heading
    (if decide (hits_side b) then x b else (candidate b).1)
    (if decide (hits_floor b) then y b else (candidate b).2).

(** A ball in the top-left corner of the screen, heading into it. *)
Definition corner_ball : Ball :=
  mkBall 0 10 (0, 0, 0, 0)%Z 1 (PI / 4 + PI) 10 10.

(** The example pair turned around, so that the overlapping balls move apart,
    and the second ball put on top of the first. *)
Definition apartA : Ball := set_angle ballA PI.
Definition apartB : Ball := set_angle ballB 0.
Definition stackedB : Ball := set_x ballB 100.

(** ** Construction without arguments, spelled out

    [Ball()] makes nine draws: the radius, the four colour channels, the
    speed, the heading and the two coordinates. *)
Definition draw_at (w : World) (i : nat) : Z := rng w (drawn w + i).

Definition unit_draw (k : Z) : R := IZR (k mod 2 ^ 53) / IZR (2 ^ 53).

Definition default_radius (w : World) : Z :=
  (R_MIN + draw_at w 0 mod (R_MAX - R_MIN + 1))%Z.

Definition default_ball (w : World) : Ball :=
  let r := default_radius w in
  mkBall (Ball_ID w) r
    ((0 + draw_at w 1 mod (255 - 0 + 1))%Z, (0 + draw_at w 2 mod (255 - 0 + 1))%Z,
     (0 + draw_at w 3 mod (255 - 0 + 1))%Z, (0 + draw_at w 4 mod (255 - 0 + 1))%Z)
    (unit_draw (draw_at w 5) * IZR V_MAX)
    (unit_draw (draw_at w 6) * 2 * PI)
    (IZR (r + draw_at w 7 mod (WIDTH - r - r + 1)))
    (IZR (r + draw_at w 8 mod (HEIGHT - r - r + 1))).

Definition after_draws (n : nat) (w : World) : World :=
  mkWorld (Ball_ID w) (rng w) (drawn w + n).

Definition after_default (w : World) : World :=
  mkWorld (Ball_ID w + 1) (rng w) (drawn w + 9).

(** A generator that only ever draws zero. *)
Definition still_world : World := mkWorld 0 (fun _ => 0%Z) 0.

(** The radius stage of the constructor: it raises or settles on a radius
    within the class bounds. *)
Definition radius_stage (radius_arg : PyVal) : M Z :=
  match as_int radius_arg with
  | Some n => _ ← assert (R_MIN <= n <= R_MAX)%Z; mret n
  | None => randint R_MIN R_MAX
  end.

(** A supplied argument that is a number outside the range its parameter
    is documented to have. *)
Definition radius_outside (val : PyVal) : Prop :=
  exists q, as_number val = Some q /\ ~ (IZR R_MIN <= q <= IZR R_MAX).

Definition angle_outside (val : PyVal) : Prop :=
  exists a, as_number val = Some a /\ ~ (0 <= a <= 2 * PI).

(** ** Vocabulary of the placement statements *)

(** Two balls do not touch: the centre distance exceeds the radii. *)
Definition apart (a b : Ball) : Prop :=
  IZR (radius a + radius b) < distance (x a, y a) (x b, y b).

Definition pairwise_apart (balls : list Ball) : Prop :=
  forall (i j : nat) (a b : Ball),
    i <> j -> balls !! i = Some a -> balls !! j = Some b -> apart a b.

(** A generator whose second candidate lands on the first ball and whose
    third lands clear of it: all radii are 10, the centres are (100, 100),
    (105, 100) and (500, 100). *)
Definition demo_rng (n : nat) : Z :=
  match n with
  | 0 | 9 | 18 => 8%Z
  | 7 | 8 | 17 | 26 => 90%Z
  | 16 => 95%Z
  | 25 => 490%Z
  | _ => 0%Z
  end%nat.

Definition demo_world : World := mkWorld 0 demo_rng 0.

Definition demo_balls : list Ball :=
  [default_ball demo_world;
   default_ball (after_default (after_default demo_world))].

(** ** Vocabulary of the statements about a whole pass *)

(** What one pair body leaves, whichever branch it takes. *)
Definition resolved (ball1 ball2 : Ball) : Ball * Ball :=
  if decide (centre_dist ball1 ball2 < min_dist ball1 ball2) then
    if decide (approach ball1 ball2 > 0) then corrected ball1 ball2
    else bounced ball1 ball2
  else (ball1, ball2).

(** The sum of a quantity over the list of balls. *)
Definition total (f : Ball -> R) (balls : list Ball) : R :=
  foldr (fun b acc => f b + acc) 0 balls.

(** Momentum components and kinetic energy of one ball. *)
Definition px (b : Ball) : R := m b * vx b.
Definition py (b : Ball) : R := m b * vy b.
Definition energy (b : Ball) : R := / 2 * m b * v b ^ 2.

(** What the engine never writes: identity, radius and colour. *)
Definition shape (b : Ball) : Z * Z * (Z * Z * Z * Z) :=
  (ball_id b, radius b, color b).

(** No two balls of the list overlap strictly. *)
Definition no_overlap (balls : list Ball) : Prop :=
  forall (i j : nat) (a b : Ball),
    i <> j -> balls !! i = Some a -> balls !! j = Some b ->
    ~ centre_dist a b < min_dist a b.

(** The whole disc lies on the screen. *)
Definition disc_inside (b : Ball) : Prop :=
  IZR (radius b) <= x b <= IZR WIDTH - IZR (radius b)
  /\ IZR (radius b) <= y b <= IZR HEIGHT - IZR (radius b).

(** The identifiers grow along the list. *)
Definition ids_increasing (balls : list Ball) : Prop :=
  forall (i j : nat) (a b : Ball),
    (i < j)%nat -> balls !! i = Some a -> balls !! j = Some b ->
    (ball_id a < ball_id b)%Z.

(** A ball as the constructor leaves it. *)
Definition fresh_ball (b : Ball) : Prop :=
  (R_MIN <= radius b <= R_MAX)%Z
  /\ 0 <= v b < IZR V_MAX
  /\ 0 <= angle b <= 2 * PI
  /\ disc_inside b.

(** ** The engine with the float power

    On floats one operation of the loop body can raise besides the
    division: [a ** 2] is an OverflowError when the square rounds to
    infinity, that is from 2^1024 - 2^970 on.  [collide_pair_checked] is
    [collide_pair] with the four squares of the speed assignments read that
    way; sums and products of floats never raise. *)
Definition FLOAT_OVERFLOW : R := IZR (2 ^ 1024 - 2 ^ 970).

(** [a ** 2] *)
Definition pysq (a : R) : res R :=
  if decide (FLOAT_OVERFLOW <= a ^ 2) then Raise OverflowError
  else Ok (a ^ 2).

(** [(a**2 + b**2) ** 0.5] *)
Definition pynorm (a b : R) : res R :=
  a2 ← pysq a; b2 ← pysq b; Ok (sqrt (a2 + b2)).

Definition collide_pair_checked (ball1 ball2 : Ball) : res (Ball * Ball) :=
  let dx := x ball2 - x ball1 in
  let dy := y ball2 - y ball1 in
  let dist := sqrt (dx * dx + dy * dy) in
  let min_distance := IZR (radius ball1 + radius ball2) in
  if decide (dist < min_distance) then
    let '(dx, dy, dist) :=
      if decide (dist = 0) then (1, 0, 1) else (dx, dy, dist) in
    nx ← pydiv dx dist;
    ny ← pydiv dy dist;
    let overlap := min_distance - dist in
    let ball1 := set_x ball1 (x ball1 - overlap * nx * 0.5) in
    let ball1 := set_y ball1 (y ball1 - overlap * ny * 0.5) in
    let ball2 := set_x ball2 (x ball2 + overlap * nx * 0.5) in
    let ball2 := set_y ball2 (y ball2 + overlap * ny * 0.5) in
    let dvx := vx ball2 - vx ball1 in
    let dvy := vy ball2 - vy ball1 in
    let velocity_along_normal := dvx * nx + dvy * ny in
    if decide (velocity_along_normal > 0) then Ok (ball1, ball2)
    else
      let restitution := 1 in
      impulse ← pydiv (2 * velocity_along_normal) (m ball1 + m ball2);
      let vx1 := vx ball1 + impulse * m ball2 * nx * restitution in
      let vy1 := vy ball1 + impulse * m ball2 * ny * restitution in
      let vx2 := vx ball2 - impulse * m ball1 * nx * restitution in
      let vy2 := vy ball2 - impulse * m ball1 * ny * restitution in
      speed1 ← pynorm vx1 vy1;
      let ball1 := set_v ball1 speed1 in
      speed2 ← pynorm vx2 vy2;
      let ball2 := set_v ball2 speed2 in
      speed1 ← pynorm vx1 vy1;
      let ball1 := set_v ball1 speed1 in
      let ball1 := set_angle ball1 (atan2 vy1 vx1) in
      speed2 ← pynorm vx2 vy2;
      let ball2 := set_v ball2 speed2 in
      let ball2 := set_angle ball2 (atan2 vy2 vx2) in
      Ok (ball1, ball2)
  else Ok (ball1, ball2).

(** The loops of [collisions] and the tick of [main] around a pair body. *)
Definition pair_step_with (body : Ball -> Ball -> res (Ball * Ball))
    (i : nat) (balls : list Ball) (j : nat) : res (list Ball) :=
  match balls !! i, balls !! j with
  | Some ball1, Some ball2 =>
      '(ball1, ball2) ← body ball1 ball2;
      Ok (<[j := ball2]> (<[i := ball1]> balls))
  | _, _ => Raise IndexError
  end.

Definition collisions_with (body : Ball -> Ball -> res (Ball * Ball))
    (balls : list Ball) : res (list Ball) :=
  let n := length balls in
  for_each
    (fun balls i =>
       for_each (pair_step_with body i) (seq (i + 1) (n - (i + 1))) balls)
    (seq 0 n) balls.

Definition collisions_checked : list Ball -> res (list Ball) :=
  collisions_with collide_pair_checked.

Definition tick_checked (balls : list Ball) : res (list Ball) :=
  balls ← collisions_checked (map move balls);
  Ok (filter (fun ball => negb (is_outside ball) = true) balls).

(** A velocity one of whose components has a square beyond the floats. *)
Definition overflowing (vel : R * R) : Prop :=
  FLOAT_OVERFLOW <= vel.1 ^ 2 \/ FLOAT_OVERFLOW <= vel.2 ^ 2.

#[global] Instance overflowing_dec (vel : R * R) : Decision (overflowing vel).
Proof. unfold overflowing. apply _. Defined.

(** The pair reaches the impulse response with such a velocity. *)
Definition bounce_overflows (ball1 ball2 : Ball) : Prop :=
  centre_dist ball1 ball2 < min_dist ball1 ball2
  /\ ~ approach ball1 ball2 > 0
  /\ (overflowing (velocity1 ball1 ball2)
      \/ overflowing (velocity2 ball1 ball2)).

#[global] Instance bounce_overflows_dec (b1 b2 : Ball) :
  Decision (bounce_overflows b1 b2).
Proof. unfold bounce_overflows. apply _. Defined.

(** Speeds far below the square root of the largest float. *)
Definition SPEED_BOUND : R := IZR (10 ^ 150).

Definition calm (b : Ball) : Prop := wf_ball b /\ v b <= SPEED_BOUND.


(** A vertical head-on pair: the upper ball moves down the screen axis,
    the lower one up. *)
Definition vertA : Ball := mkBall 0 10 (0, 0, 0, 0)%Z 5 (PI / 2) 100 100.
Definition vertB : Ball :=
  mkBall 1 10 (0, 0, 0, 0)%Z 5 (3 * (PI / 2)) 100 115.

(** A total kinetic energy under which no ball of positive mass can be
    fast enough to overflow. *)
Definition ENERGY_BOUND : R := 4 * SPEED_BOUND ^ 2.

(** Well-formed balls of bounded total energy: what a tick keeps. *)
Definition tame (balls : list Ball) : Prop :=
  Forall wf_ball balls /\ total energy balls <= ENERGY_BOUND.

Fixpoint ticks_checked (n : nat) (balls : list Ball) : res (list Ball) :=
  match n with
  | O => Ok balls
  | S n => balls ← tick_checked balls; ticks_checked n balls
  end.

(** * Properties *)

(** ** Real-number facts used by the engine *)

Section Polar.

Lemma hyp_root_pos (t : R) : 0 < sqrt (1 + t²).
Proof. apply sqrt_lt_R0. unfold Rsqr. nra. Qed.

Lemma hyp_root_sq (t : R) : sqrt (1 + t²) * sqrt (1 + t²) = 1 + t * t.
Proof. rewrite sqrt_sqrt; unfold Rsqr; nra. Qed.

(** The norm of [(a, b)] through the slope [b / a]. *)
Lemma norm_slope_pos (a b : R) :
  0 < a -> sqrt (a ^ 2 + b ^ 2) = a * sqrt (1 + (b / a)²).
Proof.
  intros Ha. apply sqrt_lem_1.
  - nra.
  - pose proof (hyp_root_pos (b / a)). nra.
  - transitivity (a * a * (sqrt (1 + (b / a)²) * sqrt (1 + (b / a)²))); [ring|].
    rewrite hyp_root_sq. field. lra.
Qed.

Lemma norm_slope_neg (a b : R) :
  a < 0 -> sqrt (a ^ 2 + b ^ 2) = - a * sqrt (1 + (b / a)²).
Proof.
  intros Ha. apply sqrt_lem_1.
  - nra.
  - pose proof (hyp_root_pos (b / a)). nra.
  - transitivity (a * a * (sqrt (1 + (b / a)²) * sqrt (1 + (b / a)²))); [ring|].
    rewrite hyp_root_sq. field. lra.
Qed.

Lemma norm_axis (b : R) : sqrt (0 ^ 2 + b ^ 2) = Rabs b.
Proof.
  replace (0 ^ 2 + b ^ 2) with (b²) by (unfold Rsqr; ring).
  apply sqrt_Rsqr_abs.
Qed.

(** Speed and heading recomputed from components give the components back. *)
Lemma polar_cos (a b : R) : sqrt (a ^ 2 + b ^ 2) * cos (atan2 b a) = a.
Proof.
  unfold atan2. pose proof (hyp_root_pos (b / a)) as Hs.
  repeat case_decide.
  - rewrite norm_slope_pos, cos_atan by done. field. lra.
  - rewrite norm_slope_neg by done.
    rewrite neg_cos.
    rewrite cos_atan. field. lra.
  - rewrite norm_slope_neg by done.
    replace (atan (b / a) - PI) with (- (PI - atan (b / a))) by ring.
    rewrite cos_neg, Rtrigo_facts.cos_pi_minus, cos_atan. field. lra.
  - replace a with 0 by lra. rewrite cos_PI2. ring.
  - replace a with 0 by lra. rewrite cos_neg, cos_PI2. ring.
  - replace a with 0 by lra. replace b with 0 by lra.
    replace (0 ^ 2 + 0 ^ 2) with 0 by ring. rewrite sqrt_0. ring.
Qed.

Lemma polar_sin (a b : R) : sqrt (a ^ 2 + b ^ 2) * sin (atan2 b a) = b.
Proof.
  unfold atan2. pose proof (hyp_root_pos (b / a)) as Hs.
  repeat case_decide.
  - rewrite norm_slope_pos, sin_atan by done. field. lra.
  - rewrite norm_slope_neg by done.
    rewrite neg_sin, sin_atan. field. lra.
  - rewrite norm_slope_neg by done.
    replace (atan (b / a) - PI) with (- (PI - atan (b / a))) by ring.
    rewrite sin_neg, Rtrigo_facts.sin_pi_minus, sin_atan. field. lra.
  - replace a with 0 by lra. rewrite norm_axis, sin_PI2, Rabs_right; lra.
  - replace a with 0 by lra.
    rewrite norm_axis, sin_neg, sin_PI2, Rabs_left; lra.
  - replace a with 0 by lra. replace b with 0 by lra.
    replace (0 ^ 2 + 0 ^ 2) with 0 by ring. rewrite sqrt_0. ring.
Qed.

End Polar.

(** ** One pair of the engine, case by case *)


Lemma collide_pair_miss (b1 b2 : Ball) :
  ~ centre_dist b1 b2 < min_dist b1 b2 -> collide_pair b1 b2 = Ok (b1, b2).
Proof.
  intros H. unfold collide_pair.
  fold (centre_dist b1 b2). fold (min_dist b1 b2).
  by rewrite decide_False.
Qed.

Lemma collide_pair_hit (b1 b2 : Ball) :
  centre_dist b1 b2 < min_dist b1 b2 ->
  collide_pair b1 b2 =
    if decide (approach b1 b2 > 0) then Ok (corrected b1 b2)
    else if decide (m b1 + m b2 = 0) then Raise ZeroDivisionError
    else Ok (bounced b1 b2).
Proof.
  intros H. unfold collide_pair.
  fold (centre_dist b1 b2). fold (min_dist b1 b2).
  rewrite decide_True by done.
  unfold bounced, redirect, velocity1, velocity2, impulse_of, approach,
    corrected, overlap_of, normal, contact.
  destruct (decide (centre_dist b1 b2 = 0)) as [Hz|Hz]; unfold pydiv.
  - rewrite !(decide_False (P := (1 = 0))) by lra. cbn.
    repeat case_decide; done.
  - rewrite !(decide_False (P := (centre_dist b1 b2 = 0))) by done. cbn.
    repeat case_decide; done.
Qed.

Lemma normal_unit (b1 b2 : Ball) :
  (normal b1 b2).1 * (normal b1 b2).1 + (normal b1 b2).2 * (normal b1 b2).2 = 1.
Proof.
  unfold normal, contact. case_decide as Hz; cbn.
  - field.
  - set (dx := x b2 - x b1) in *. set (dy := y b2 - y b1) in *.
    assert (Hs : centre_dist b1 b2 * centre_dist b1 b2 = dx * dx + dy * dy).
    { unfold centre_dist. apply sqrt_sqrt. nra. }
    fold dx dy in Hs.
    transitivity ((dx * dx + dy * dy) / (centre_dist b1 b2 * centre_dist b1 b2)).
    + field. done.
    + rewrite Hs. field. rewrite <- Hs. nra.
Qed.

Lemma mass_pos (b : Ball) : wf_ball b -> 8 <= m b.
Proof.
  intros [[Hr _] _]. unfold m, R_MIN in *. apply IZR_le.
  replace (radius b ^ 3)%Z with (radius b * radius b * radius b)%Z by ring.
  nia.
Qed.

Lemma speed_sq (b : Ball) : vx b ^ 2 + vy b ^ 2 = v b ^ 2.
Proof.
  unfold vx, vy. pose proof (sin2_cos2 (angle b)) as H. unfold Rsqr in H.
  nra.
Qed.

Lemma redirect_vx (b : Ball) (vel : R * R) : vx (redirect b vel) = vel.1.
Proof. unfold vx, redirect. cbn. apply polar_cos. Qed.

Lemma redirect_vy (b : Ball) (vel : R * R) : vy (redirect b vel) = vel.2.
Proof. unfold vy, redirect. cbn. apply polar_sin. Qed.

Lemma redirect_speed_sq (b : Ball) (vel : R * R) :
  v (redirect b vel) ^ 2 = vel.1 ^ 2 + vel.2 ^ 2.
Proof.
  unfold redirect. cbn [v set_angle set_v].
  pose proof (sqrt_sqrt (vel.1 ^ 2 + vel.2 ^ 2)) as H. nra.
Qed.

Lemma bounced_fst (b1 b2 : Ball) :
  (bounced b1 b2).1 = redirect (corrected b1 b2).1 (velocity1 b1 b2).
Proof. unfold bounced. by destruct (corrected b1 b2). Qed.
Lemma bounced_snd (b1 b2 : Ball) :
  (bounced b1 b2).2 = redirect (corrected b1 b2).2 (velocity2 b1 b2).
Proof. unfold bounced. by destruct (corrected b1 b2). Qed.

Lemma redirect_m (b : Ball) (vel : R * R) : m (redirect b vel) = m b.
Proof. done. Qed.
Lemma corrected_m1 (b1 b2 : Ball) : m (corrected b1 b2).1 = m b1.
Proof. unfold corrected. by destruct (normal b1 b2). Qed.
Lemma corrected_m2 (b1 b2 : Ball) : m (corrected b1 b2).2 = m b2.
Proof. unfold corrected. by destruct (normal b1 b2). Qed.

Lemma bounced_momentum (b1 b2 : Ball) :
  m b1 + m b2 <> 0 ->
  momentum (bounced b1 b2).1 (bounced b1 b2).2 = momentum b1 b2.
Proof.
  intros Hm. unfold momentum. rewrite bounced_fst, bounced_snd.
  rewrite !redirect_vx, !redirect_vy, !redirect_m, corrected_m1, corrected_m2.
  unfold velocity1, velocity2. destruct (normal b1 b2) as [nx ny]. cbn.
  f_equal; ring.
Qed.

Lemma bounced_kinetic (b1 b2 : Ball) :
  m b1 + m b2 <> 0 ->
  kinetic (bounced b1 b2).1 (bounced b1 b2).2 = kinetic b1 b2.
Proof.
  intros Hm. unfold kinetic. rewrite bounced_fst, bounced_snd.
  rewrite !redirect_speed_sq, !redirect_m, corrected_m1, corrected_m2.
  rewrite <- (speed_sq b1), <- (speed_sq b2).
  pose proof (normal_unit b1 b2) as Hn.
  unfold velocity1, velocity2, impulse_of, approach.
  destruct (normal b1 b2) as [nx ny]. cbn in *.
  generalize dependent (m b1). generalize dependent (m b2).
  generalize (vx b1) (vy b1) (vx b2) (vy b2).
  intros a1 c1 a2 c2 m2 m1 Hm.
  set (p := (a2 - a1) * nx + (c2 - c1) * ny).
  assert (HJ : 2 * p / (m1 + m2) * (m1 + m2) = 2 * p) by (by field).
  revert HJ. generalize (2 * p / (m1 + m2)). intros J HJ.
  apply Rminus_diag_uniq.
  transitivity (m1 * m2 * J * (J * (m1 + m2) * (nx * nx + ny * ny) / 2 - p)).
  - unfold p. field.
  - rewrite HJ, Hn. field.
Qed.

Lemma collisions_pair (b1 b2 : Ball) :
  collisions [b1; b2] = '(c1, c2) ← collide_pair b1 b2; Ok [c1; c2].
Proof.
  unfold collisions, pair_step. cbn -[collide_pair].
  destruct (collide_pair b1 b2) as [[c1 c2]|e]; done.
Qed.

(** ** Conservation for an isolated pair *)

(** C1: an isolated pair of well-formed balls that overlap and approach each
    other is resolved by one pass of the engine without error, and the pair
    it leaves has the same total momentum (sum of pseudo-mass times velocity)
    and the same total kinetic energy (sum of half pseudo-mass times squared
    speed) as the pair it was given. *)
Theorem pair_conserves_momentum_and_energy (b1 b2 : Ball) :
  wf_ball b1 -> wf_ball b2 ->
  centre_dist b1 b2 < min_dist b1 b2 ->
  approach b1 b2 <= 0 ->
  exists c1 c2,
    collisions [b1; b2] = Ok [c1; c2]
    /\ (c1, c2) = bounced b1 b2
    /\ momentum c1 c2 = momentum b1 b2
    /\ kinetic c1 c2 = kinetic b1 b2.
Proof.
  intros Hw1 Hw2 Hd Ha.
  pose proof (mass_pos b1 Hw1). pose proof (mass_pos b2 Hw2).
  assert (Hm : m b1 + m b2 <> 0) by lra.
  exists (bounced b1 b2).1, (bounced b1 b2).2.
  rewrite collisions_pair, collide_pair_hit by done.
  rewrite decide_False by lra. rewrite decide_False by done.
  split_and!.
  - by destruct (bounced b1 b2).
  - by destruct (bounced b1 b2).
  - by apply bounced_momentum.
  - by apply bounced_kinetic.
Qed.

Lemma centre_dist_level (b1 b2 : Ball) :
  y b1 = y b2 -> x b1 <= x b2 -> centre_dist b1 b2 = x b2 - x b1.
Proof.
  intros Hy Hx. unfold centre_dist. rewrite Hy.
  replace ((x b2 - x b1) * (x b2 - x b1) + (y b2 - y b2) * (y b2 - y b2))
    with ((x b2 - x b1) * (x b2 - x b1)) by ring.
  apply sqrt_square. lra.
Qed.

Lemma normal_level (b1 b2 : Ball) :
  y b1 = y b2 -> x b1 < x b2 -> normal b1 b2 = (1, 0).
Proof.
  intros Hy Hx. unfold normal, contact.
  rewrite centre_dist_level by lra. rewrite decide_False by lra.
  rewrite Hy. f_equal; field; lra.
Qed.

Lemma atan2_pos_axis (a : R) : 0 < a -> atan2 0 a = 0.
Proof.
  intros H. unfold atan2. rewrite decide_True by done.
  replace (0 / a) with 0 by (field; lra). apply atan_0.
Qed.

Lemma atan2_neg_axis (a : R) : a < 0 -> atan2 0 a = PI.
Proof.
  intros H. unfold atan2. rewrite decide_False by lra.
  rewrite decide_True by done. rewrite decide_True by lra.
  replace (0 / a) with 0 by (field; lra). rewrite atan_0. ring.
Qed.

Lemma norm_level (a : R) : sqrt (a ^ 2 + 0 ^ 2) = Rabs a.
Proof.
  replace (a ^ 2 + 0 ^ 2) with (a²) by (unfold Rsqr; ring).
  apply sqrt_Rsqr_abs.
Qed.

(** ** The example scenario, evaluated *)

Lemma example_wf : wf_ball ballA /\ wf_ball ballB.
Proof. unfold wf_ball. cbn. split; (split; [by vm_compute | lra]). Qed.

Lemma example_dist : centre_dist ballA ballB = 15.
Proof. rewrite centre_dist_level; cbn; lra. Qed.

Lemma example_min_dist : min_dist ballA ballB = 20.
Proof. unfold min_dist. cbn. rewrite plus_IZR. lra. Qed.

Lemma example_normal : normal ballA ballB = (1, 0).
Proof. apply normal_level; cbn; lra. Qed.

Lemma example_approach : approach ballA ballB = -10.
Proof.
  unfold approach. rewrite example_normal. unfold vx, vy. cbn.
  rewrite cos_PI, cos_0, sin_PI, sin_0. lra.
Qed.

Lemma example_mass : m ballA = 1000 /\ m ballB = 1000.
Proof. unfold m. cbn. split; lra. Qed.

Lemma head_on_AB : collide_pair ballA ballB = Ok (ballA', ballB').
Proof.
  pose proof example_dist as Hd. pose proof example_normal as Hn.
  pose proof example_approach as Ha.
  destruct example_mass as [Hm1 Hm2].
  assert (Hi : impulse_of ballA ballB = - / 100).
  { unfold impulse_of. rewrite Ha, Hm1, Hm2. field. }
  assert (Hv1 : velocity1 ballA ballB = (-5, 0)).
  { unfold velocity1. rewrite Hn, Hi, Hm2. unfold vx, vy. cbn.
    rewrite cos_0, sin_0. f_equal; field. }
  assert (Hv2 : velocity2 ballA ballB = (5, 0)).
  { unfold velocity2. rewrite Hn, Hi, Hm1. unfold vx, vy. cbn.
    rewrite cos_PI, sin_PI. f_equal; field. }
  assert (Hc : corrected ballA ballB =
               (set_x ballA 97.5, set_x ballB 117.5)).
  { unfold corrected, overlap_of, contact. rewrite Hn, Hd.
    rewrite decide_False by lra. rewrite example_min_dist.
    unfold set_x, set_y. cbn. f_equal; f_equal; lra. }
  rewrite collide_pair_hit by (rewrite Hd, example_min_dist; lra).
  rewrite decide_False by lra. rewrite decide_False by lra.
  f_equal. unfold bounced. rewrite Hc, Hv1, Hv2. unfold redirect.
  cbn [fst snd].
  rewrite !norm_level, atan2_neg_axis, atan2_pos_axis by lra.
  rewrite Rabs_left, Rabs_right by lra.
  replace (- (-5)) with 5 by lra. reflexivity.
Qed.

Lemma pair_conserves_witness :
  exists c1 c2,
    collisions [ballA; ballB] = Ok [c1; c2]
    /\ (c1, c2) = bounced ballA ballB
    /\ momentum c1 c2 = momentum ballA ballB
    /\ kinetic c1 c2 = kinetic ballA ballB.
Proof.
  apply (pair_conserves_momentum_and_energy ballA ballB).
  - exact (proj1 example_wf).
  - exact (proj2 example_wf).
  - rewrite example_dist, example_min_dist. lra.
  - rewrite example_approach. lra.
Defined.

(** C2: on the example scenario (radius 10, pseudo-mass 1000 each, centres
    (100,100) and (115,100), velocities (5,0) and (-5,0)) one pass of the
    engine leaves the velocities (-5,0) and (5,0), and the centres exactly
    20 apart, the sum of the radii. *)
Theorem example_scenario :
  m ballA = 1000 /\ m ballB = 1000
  /\ (vx ballA, vy ballA) = (5, 0) /\ (vx ballB, vy ballB) = (-5, 0)
  /\ collisions [ballA; ballB] = Ok [ballA'; ballB']
  /\ (vx ballA', vy ballA') = (-5, 0) /\ (vx ballB', vy ballB') = (5, 0)
  /\ distance (x ballA', y ballA') (x ballB', y ballB') = 20
  /\ distance (x ballA', y ballA') (x ballB', y ballB')
     = IZR (radius ballA' + radius ballB').
Proof.
  assert (Hdist : distance (x ballA', y ballA') (x ballB', y ballB') = 20).
  { unfold distance. cbn [fst snd x y ballA' ballB'].
    replace ((97.5 - 117.5) ^ 2 + (100 - 100) ^ 2) with (20 * 20) by lra.
    apply sqrt_square. lra. }
  split_and!.
  - apply example_mass.
  - apply example_mass.
  - unfold vx, vy. cbn. rewrite cos_0, sin_0. f_equal; lra.
  - unfold vx, vy. cbn. rewrite cos_PI, sin_PI. f_equal; lra.
  - rewrite collisions_pair, head_on_AB. done.
  - unfold vx, vy. cbn. rewrite cos_PI, sin_PI. f_equal; lra.
  - unfold vx, vy. cbn. rewrite cos_0, sin_0. f_equal; lra.
  - exact Hdist.
  - rewrite Hdist. cbn. rewrite plus_IZR. lra.
Qed.

(** ** Wall reflection *)

Lemma move_refines (b : Ball) : move b = move_spec b.
Proof.
  unfold move, move_spec, hits_side, hits_floor, candidate. cbn [fst snd].
  repeat case_decide; cbn [angle set_angle radius x y v] in *.
  all: rewrite ?sin_PI_x in *.
  all: try (unfold set_x, set_y, set_angle; cbn; reflexivity).
  all: exfalso; tauto.
Qed.

Lemma move_keeps_shape (b : Ball) :
  radius (move b) = radius b /\ v (move b) = v b.
Proof. by rewrite move_refines. Qed.

Lemma radius_pos (b : Ball) : wf_ball b -> 2 <= IZR (radius b).
Proof. intros [[H _] _]. apply IZR_le. exact H. Qed.

Lemma move_wf (b : Ball) : wf_ball b -> wf_ball (move b).
Proof.
  unfold wf_ball. destruct (move_keeps_shape b) as [-> ->]. done.
Qed.


Lemma inside_not_outside (b : Ball) : inside b -> is_outside b = false.
Proof.
  intros [Hx Hy]. unfold is_outside.
  rewrite !bool_decide_eq_false_2; [done | lra..].
Qed.






Lemma corner_trig :
  cos (angle corner_ball) = - (1 / sqrt 2)
  /\ sin (angle corner_ball) = - (1 / sqrt 2).
Proof.
  cbn. rewrite neg_cos, neg_sin, cos_PI4, sin_PI4. done.
Qed.

Lemma inv_root2_pos : 0 < 1 / sqrt 2.
Proof.
  apply Rdiv_lt_0_compat; [lra | apply sqrt_lt_R0; lra].
Qed.

(** C4: move() is the reflection rule of its description: the candidate
    position comes from the current velocity; a candidate disc across the
    left wall with cos(angle) < 0, or across the right wall with
    cos(angle) > 0, turns the heading into pi - angle and keeps x; across the
    top wall with sin(angle) < 0, or the bottom wall with sin(angle) > 0, it
    negates the heading and keeps y; the two tests do not depend on each
    other and both fire for a ball heading into a corner; the speed is
    unchanged. *)
Theorem move_reflects_at_walls :
  (forall b : Ball, move b = move_spec b /\ v (move b) = v b)
  /\ hits_side corner_ball /\ hits_floor corner_ball
  /\ move corner_ball = set_angle corner_ball (- (PI - angle corner_ball)).
Proof.
  assert (Hs : hits_side corner_ball).
  { left. unfold candidate. destruct corner_trig as [-> _].
    pose proof inv_root2_pos. cbn. lra. }
  assert (Hf : hits_floor corner_ball).
  { left. unfold candidate. destruct corner_trig as [_ ->].
    pose proof inv_root2_pos. cbn. lra. }
  split_and!; try done.
  - intros b. split; [apply move_refines | apply move_keeps_shape].
  - rewrite move_refines. unfold move_spec.
    rewrite !(decide_True (P := hits_side corner_ball)) by done.
    rewrite !(decide_True (P := hits_floor corner_ball)) by done.
    done.
Qed.

(** ** Detection thresholds *)

Lemma distance_centres (b1 b2 : Ball) :
  distance (x b1, y b1) (x b2, y b2) = centre_dist b1 b2.
Proof. unfold distance, centre_dist. cbn [fst snd]. f_equal. ring. Qed.

Lemma is_collide_iff (b1 b2 : Ball) :
  is_collide b1 b2 = true <-> centre_dist b1 b2 <= min_dist b1 b2.
Proof.
  unfold is_collide. rewrite bool_decide_eq_true, distance_centres. done.
Qed.

Lemma overlap_pos (b1 b2 : Ball) :
  wf_ball b1 -> wf_ball b2 ->
  centre_dist b1 b2 < min_dist b1 b2 -> 0 < overlap_of b1 b2.
Proof.
  intros H1 H2 Hd. pose proof (radius_pos b1 H1). pose proof (radius_pos b2 H2).
  unfold overlap_of, contact, min_dist in *. rewrite plus_IZR in *.
  case_decide; lra.
Qed.

Lemma corrected_shifts (b1 b2 : Ball) :
  0 < overlap_of b1 b2 ->
  x (corrected b1 b2).1 = x b1 -> y (corrected b1 b2).1 = y b1 -> False.
Proof.
  intros Ho. pose proof (normal_unit b1 b2) as Hn.
  unfold corrected. destruct (normal b1 b2) as [nx ny].
  cbn [fst snd x y set_x set_y] in *. intros Hx Hy.
  assert (nx = 0) by nra. assert (ny = 0) by nra. subst. lra.
Qed.

Lemma bounced_position (b1 b2 : Ball) :
  x (bounced b1 b2).1 = x (corrected b1 b2).1
  /\ y (bounced b1 b2).1 = y (corrected b1 b2).1.
Proof. by rewrite bounced_fst. Qed.

Lemma collide_pair_touches (b1 b2 : Ball) :
  wf_ball b1 -> wf_ball b2 ->
  centre_dist b1 b2 < min_dist b1 b2 -> collide_pair b1 b2 <> Ok (b1, b2).
Proof.
  intros H1 H2 Hd. pose proof (overlap_pos _ _ H1 H2 Hd) as Ho.
  pose proof (corrected_shifts _ _ Ho) as Hc.
  rewrite collide_pair_hit by done.
  repeat case_decide; try done.
  - intros [= Heq]. apply Hc; by rewrite Heq.
  - intros [= Heq]. destruct (bounced_position b1 b2) as [Hx Hy].
    apply Hc; [rewrite <- Hx | rewrite <- Hy]; by rewrite Heq.
Qed.

(** C6: is_collide holds exactly when the centre distance is at most the sum
    of the radii, the engine touches a pair of well-formed balls exactly when
    the centre distance is below that sum, and so the two tests disagree
    exactly on tangent pairs. *)
Theorem placement_and_engine_thresholds (b1 b2 : Ball) :
  wf_ball b1 -> wf_ball b2 ->
  (is_collide b1 b2 = true
   <-> distance (x b1, y b1) (x b2, y b2) <= IZR (radius b1 + radius b2))
  /\ (collide_pair b1 b2 <> Ok (b1, b2)
      <-> distance (x b1, y b1) (x b2, y b2) < IZR (radius b1 + radius b2))
  /\ (is_collide b1 b2 = true /\ collide_pair b1 b2 = Ok (b1, b2)
      <-> distance (x b1, y b1) (x b2, y b2) = IZR (radius b1 + radius b2)).
Proof.
  intros H1 H2. rewrite distance_centres. fold (min_dist b1 b2).
  assert (Hengine : collide_pair b1 b2 <> Ok (b1, b2)
                    <-> centre_dist b1 b2 < min_dist b1 b2).
  { split.
    - intros Hne. destruct (Rlt_dec (centre_dist b1 b2) (min_dist b1 b2));
        [done|]. by rewrite collide_pair_miss in Hne.
    - by apply collide_pair_touches. }
  split_and!; [apply is_collide_iff | done |].
  rewrite is_collide_iff. split.
  - intros [Hle Heq].
    destruct (Rlt_dec (centre_dist b1 b2) (min_dist b1 b2)) as [Hlt|Hlt].
    + by apply Hengine in Hlt.
    + lra.
  - intros Heq. split; [lra|]. apply collide_pair_miss. lra.
Qed.

Lemma tangent_dist : centre_dist ballA' ballB' = 20.
Proof. rewrite centre_dist_level; cbn; lra. Qed.

Lemma tangent_wf : wf_ball ballA' /\ wf_ball ballB'.
Proof. unfold wf_ball. cbn. split; (split; [by vm_compute | lra]). Qed.

Lemma placement_and_engine_thresholds_witness :
  (is_collide ballA' ballB' = true
   <-> distance (x ballA', y ballA') (x ballB', y ballB')
       <= IZR (radius ballA' + radius ballB'))
  /\ (collide_pair ballA' ballB' <> Ok (ballA', ballB')
      <-> distance (x ballA', y ballA') (x ballB', y ballB')
          < IZR (radius ballA' + radius ballB'))
  /\ (is_collide ballA' ballB' = true
      /\ collide_pair ballA' ballB' = Ok (ballA', ballB')
      <-> distance (x ballA', y ballA') (x ballB', y ballB')
          = IZR (radius ballA' + radius ballB')).
Proof.
  apply (placement_and_engine_thresholds ballA' ballB').
  - exact (proj1 tangent_wf).
  - exact (proj2 tangent_wf).
Defined.

(** ** Separating pairs *)

(** C7: an overlapping pair whose relative velocity along the normal is
    strictly positive gets the positional correction, each ball pushed half
    the overlap along the normal, and keeps its speed and heading. *)
Theorem separating_pair_keeps_velocity (b1 b2 : Ball) :
  centre_dist b1 b2 < min_dist b1 b2 ->
  approach b1 b2 > 0 ->
  exists c1 c2,
    collisions [b1; b2] = Ok [c1; c2]
    /\ (x c1, y c1) = (x b1 - overlap_of b1 b2 * (normal b1 b2).1 * 0.5,
                       y b1 - overlap_of b1 b2 * (normal b1 b2).2 * 0.5)
    /\ (x c2, y c2) = (x b2 + overlap_of b1 b2 * (normal b1 b2).1 * 0.5,
                       y b2 + overlap_of b1 b2 * (normal b1 b2).2 * 0.5)
    /\ v c1 = v b1 /\ angle c1 = angle b1
    /\ v c2 = v b2 /\ angle c2 = angle b2.
Proof.
  intros Hd Ha. exists (corrected b1 b2).1, (corrected b1 b2).2.
  rewrite collisions_pair, collide_pair_hit by done.
  rewrite decide_True by done.
  unfold corrected. destruct (normal b1 b2) as [nx ny]. done.
Qed.

Lemma apart_dist : centre_dist apartA apartB = 15.
Proof. rewrite centre_dist_level; cbn; lra. Qed.

Lemma apart_approach : approach apartA apartB = 10.
Proof.
  unfold approach. rewrite normal_level by (cbn; lra).
  unfold vx, vy. cbn. rewrite cos_PI, cos_0, sin_PI, sin_0. lra.
Qed.

Lemma separating_pair_keeps_velocity_witness :
  exists c1 c2,
    collisions [apartA; apartB] = Ok [c1; c2]
    /\ (x c1, y c1)
       = (x apartA - overlap_of apartA apartB * (normal apartA apartB).1 * 0.5,
          y apartA - overlap_of apartA apartB * (normal apartA apartB).2 * 0.5)
    /\ (x c2, y c2)
       = (x apartB + overlap_of apartA apartB * (normal apartA apartB).1 * 0.5,
          y apartB + overlap_of apartA apartB * (normal apartA apartB).2 * 0.5)
    /\ v c1 = v apartA /\ angle c1 = angle apartA
    /\ v c2 = v apartB /\ angle c2 = angle apartB.
Proof.
  apply (separating_pair_keeps_velocity apartA apartB).
  - rewrite apart_dist. change (min_dist apartA apartB) with (min_dist ballA ballB).
    rewrite example_min_dist. lra.
  - rewrite apart_approach. lra.
Defined.

(** ** The engine never divides by zero *)

Lemma redirect_wf (b : Ball) (vel : R * R) : wf_ball b -> wf_ball (redirect b vel).
Proof.
  intros [Hr _]. split; [done|]. unfold redirect. cbn. apply sqrt_pos.
Qed.

Lemma corrected_wf (b1 b2 : Ball) :
  wf_ball b1 -> wf_ball b2 ->
  wf_ball (corrected b1 b2).1 /\ wf_ball (corrected b1 b2).2.
Proof. unfold corrected. by destruct (normal b1 b2). Qed.

Lemma collide_pair_ok (b1 b2 : Ball) :
  wf_ball b1 -> wf_ball b2 ->
  exists c1 c2, collide_pair b1 b2 = Ok (c1, c2) /\ wf_ball c1 /\ wf_ball c2.
Proof.
  intros H1 H2.
  destruct (Rlt_dec (centre_dist b1 b2) (min_dist b1 b2)) as [Hd|Hd].
  - destruct (corrected_wf b1 b2 H1 H2) as [Hc1 Hc2].
    pose proof (mass_pos b1 H1). pose proof (mass_pos b2 H2).
    rewrite collide_pair_hit by done. case_decide.
    + exists (corrected b1 b2).1, (corrected b1 b2).2.
      by destruct (corrected b1 b2).
    + rewrite decide_False by lra.
      exists (bounced b1 b2).1, (bounced b1 b2).2.
      split; [by destruct (bounced b1 b2)|].
      rewrite bounced_fst, bounced_snd. split; by apply redirect_wf.
  - exists b1, b2. by rewrite collide_pair_miss.
Qed.

Lemma for_each_ok {S A : Type} (P : S -> Prop) (Q : A -> Prop)
    (body : S -> A -> res S) (l : list A) (s : S) :
  (forall s a, P s -> Q a -> exists s', body s a = Ok s' /\ P s') ->
  Forall Q l -> P s ->
  exists s', for_each body l s = Ok s' /\ P s'.
Proof.
  intros Hbody Hl. revert s. induction Hl as [|a l Ha _ IH]; intros s Hs.
  - by exists s.
  - destruct (Hbody s a Hs Ha) as (s' & Hs' & HP). cbn. rewrite Hs'. cbn.
    by apply IH.
Qed.

Lemma pair_step_ok (n i j : nat) (balls : list Ball) :
  (i < n)%nat -> (j < n)%nat -> sound_list n balls ->
  exists balls', pair_step i balls j = Ok balls' /\ sound_list n balls'.
Proof.
  intros Hi Hj [Hwf Hlen]. unfold pair_step.
  destruct (lookup_lt_is_Some_2 balls i) as [b1 Hb1]; [lia|].
  destruct (lookup_lt_is_Some_2 balls j) as [b2 Hb2]; [lia|].
  rewrite Hb1, Hb2.
  assert (H1 : wf_ball b1) by (by eapply Forall_lookup_1).
  assert (H2 : wf_ball b2) by (by eapply Forall_lookup_1).
  destruct (collide_pair_ok b1 b2 H1 H2) as (c1 & c2 & -> & Hc1 & Hc2).
  eexists. split; [done|]. split.
  - apply Forall_insert; [|done]. by apply Forall_insert.
  - by rewrite !length_insert.
Qed.

Lemma collisions_ok_sound (balls : list Ball) :
  Forall wf_ball balls ->
  exists balls', collisions balls = Ok balls' /\ sound_list (length balls) balls'.
Proof.
  intros Hwf. unfold collisions. set (n := length balls).
  apply (for_each_ok (sound_list n) (fun i => (i < n)%nat)); [| |done].
  - intros bs i Hs Hi.
    apply (for_each_ok (sound_list n) (fun j => (j < n)%nat)); [| |done].
    + intros bs' j Hs' Hj. by apply pair_step_ok.
    + apply Forall_forall. intros j Hj%elem_of_seq. lia.
  - apply Forall_forall. intros i Hi%elem_of_seq. lia.
Qed.

Lemma coincident_dist (b1 b2 : Ball) :
  x b1 = x b2 -> y b1 = y b2 -> centre_dist b1 b2 = 0.
Proof.
  intros Hx Hy. unfold centre_dist. rewrite Hx, Hy.
  replace ((x b2 - x b2) * (x b2 - x b2) + (y b2 - y b2) * (y b2 - y b2))
    with 0 by ring.
  apply sqrt_0.
Qed.

Lemma collide_pair_hit_positions (b1 b2 : Ball) :
  wf_ball b1 -> wf_ball b2 -> centre_dist b1 b2 < min_dist b1 b2 ->
  exists c1 c2,
    collide_pair b1 b2 = Ok (c1, c2)
    /\ (x c1, y c1) = (x (corrected b1 b2).1, y (corrected b1 b2).1)
    /\ (x c2, y c2) = (x (corrected b1 b2).2, y (corrected b1 b2).2).
Proof.
  intros H1 H2 Hd.
  pose proof (mass_pos b1 H1). pose proof (mass_pos b2 H2).
  rewrite collide_pair_hit by done. case_decide.
  - exists (corrected b1 b2).1, (corrected b1 b2).2.
    by destruct (corrected b1 b2).
  - rewrite decide_False by lra.
    exists (bounced b1 b2).1, (bounced b1 b2).2.
    split; [by destruct (bounced b1 b2)|].
    by rewrite bounced_fst, bounced_snd.
Qed.

Lemma coincident_contact (b1 b2 : Ball) :
  x b1 = x b2 -> y b1 = y b2 -> contact b1 b2 = (1, 0, 1).
Proof.
  intros Hx Hy. unfold contact.
  by rewrite decide_True by (by apply coincident_dist).
Qed.

(** ** Construction *)

Lemma bind_run {A B : Type} (c : M A) (k : A -> M B) (w : World) :
  (c ≫= k) w =
  match c w with
  | (Ok a, w') => k a w'
  | (Raise e, w') => (Raise e, w')
  end.
Proof. done. Qed.

Lemma randint_run (a b : Z) (w : World) :
  (a <= b)%Z ->
  randint a b w
  = (Ok (a + draw_at w 0 mod (b - a + 1))%Z, after_draws 1 w).
Proof.
  intros H. unfold randint. rewrite decide_False by lia.
  unfold draw_at, after_draws. rewrite bind_run. cbn [next_draw].
  unfold next_draw, mret, M_ret. by rewrite Nat.add_0_r, Nat.add_1_r.
Qed.

Lemma random_run (w : World) :
  random w = (Ok (unit_draw (draw_at w 0)), after_draws 1 w).
Proof.
  unfold random, unit_draw, draw_at, after_draws. rewrite bind_run.
  unfold next_draw, mret, M_ret. by rewrite Nat.add_0_r, Nat.add_1_r.
Qed.

Lemma draw_at_after (n i : nat) (w : World) :
  draw_at (after_draws n w) i = draw_at w (n + i).
Proof. unfold draw_at, after_draws. cbn. f_equal. lia. Qed.

Lemma after_draws_after (n k : nat) (w : World) :
  after_draws n (after_draws k w) = after_draws (k + n) w.
Proof. unfold after_draws. cbn. f_equal. lia. Qed.

Lemma default_radius_range (w : World) :
  (R_MIN <= default_radius w <= R_MAX)%Z.
Proof.
  unfold default_radius.
  assert (0 < R_MAX - R_MIN + 1)%Z by (by vm_compute).
  pose proof (Z.mod_pos_bound (draw_at w 0) (R_MAX - R_MIN + 1)). lia.
Qed.

Lemma Ball_init_default (w : World) :
  Ball_init PyNone PyNone w = (Ok (default_ball w), after_default w).
Proof.
  pose proof (default_radius_range w) as Hr.
  assert (HR : (R_MAX = 250 /\ R_MIN = 2 /\ WIDTH = 1000 /\ HEIGHT = 1000)%Z)
    by (by vm_compute).
  unfold Ball_init. cbn [as_int as_number].
  rewrite bind_run. unfold fresh_id at 1.
  set (w0 := mkWorld (Ball_ID w + 1) (rng w) (drawn w)).
  assert (Hd : forall i, draw_at w0 i = draw_at w i) by done.
  rewrite bind_run, randint_run by lia.
  do 4 (rewrite bind_run, randint_run by lia).
  rewrite bind_run, random_run.
  rewrite bind_run, bind_run, random_run. unfold mret at 1, M_ret at 1.
  rewrite bind_run, randint_run by (rewrite Hd; fold (default_radius w); lia).
  rewrite bind_run, randint_run by (rewrite Hd; fold (default_radius w); lia).
  rewrite !after_draws_after, !draw_at_after, !Hd. cbn [Nat.add].
  unfold mret, M_ret, default_ball, after_default.
  fold (default_radius w). done.
Qed.

Lemma assert_run (cond : Prop) `{!Decision cond} (w : World) :
  assert cond w = if decide cond then (Ok tt, w) else (Raise AssertionError, w).
Proof. unfold assert. by case_decide. Qed.

Lemma radius_stage_run (radius_arg : PyVal) (w : World) :
  (exists w', radius_stage radius_arg w = (Raise AssertionError, w'))
  \/ (exists r w', radius_stage radius_arg w = (Ok r, w')
                    /\ (R_MIN <= r <= R_MAX)%Z).
Proof.
  unfold radius_stage. destruct (as_int radius_arg) as [n|].
  - rewrite bind_run, assert_run. case_decide; [right | left]; eauto.
  - right. rewrite randint_run by (by vm_compute).
    do 2 eexists. split; [done|].
    assert (0 < R_MAX - R_MIN + 1)%Z by (by vm_compute).
    pose proof (Z.mod_pos_bound (draw_at w 0) (R_MAX - R_MIN + 1)). lia.
Qed.

Lemma Ball_init_bad_radius (radius_arg angle_arg : PyVal) (n : Z) (w : World) :
  as_int radius_arg = Some n -> ~ (R_MIN <= n <= R_MAX)%Z ->
  (Ball_init radius_arg angle_arg w).1 = Raise AssertionError.
Proof.
  intros Hn Hbad. unfold Ball_init. rewrite Hn.
  rewrite bind_run. unfold fresh_id at 1.
  rewrite !bind_run, assert_run. by rewrite decide_False.
Qed.

Lemma Ball_init_bad_angle (radius_arg angle_arg : PyVal) (a : R) (w : World) :
  as_number angle_arg = Some a -> ~ (0 <= a <= 2 * PI) ->
  (Ball_init radius_arg angle_arg w).1 = Raise AssertionError.
Proof.
  intros Ha Hbad. unfold Ball_init. rewrite Ha.
  fold (radius_stage radius_arg).
  rewrite bind_run. unfold fresh_id at 1.
  rewrite bind_run.
  destruct (radius_stage_run radius_arg
              (mkWorld (Ball_ID w + 1) (rng w) (drawn w)))
    as [[w' ->] | (r & w' & -> & Hr)]; [done|].
  do 4 (rewrite bind_run, randint_run by lia).
  rewrite bind_run, random_run.
  rewrite !bind_run, assert_run. by rewrite decide_False.
Qed.

Lemma as_int_number (val : PyVal) (n : Z) :
  as_int val = Some n -> as_number val = Some (IZR n).
Proof. destruct val as [|[]| | |]; cbn; intros [= <-]; done. Qed.

(** C9 (amended): a supplied radius that is an int (or a bool)
    outside [R_MIN, R_MAX], or a supplied heading that is an int or a float
    outside [0, 2*pi], makes the constructor fail with an AssertionError
    before any ball is returned. *)
Theorem checked_arguments_fail_fast
    (radius_arg angle_arg : PyVal) (w : World) :
  (is_Some (as_int radius_arg) /\ radius_outside radius_arg)
  \/ angle_outside angle_arg ->
  (Ball_init radius_arg angle_arg w).1 = Raise AssertionError.
Proof.
  intros [[[n Hn] (q & Hq & Hbad)] | (a & Ha & Hbad)].
  - apply (Ball_init_bad_radius _ _ n); [done|].
    rewrite (as_int_number _ _ Hn) in Hq. injection Hq as <-.
    intros [H1 H2]. apply Hbad. split; by apply IZR_le.
  - by apply (Ball_init_bad_angle _ _ a).
Qed.

Lemma checked_arguments_fail_fast_witness :
  (Ball_init (PyInt 1000) PyNone still_world).1 = Raise AssertionError.
Proof.
  apply (checked_arguments_fail_fast (PyInt 1000) PyNone still_world).
  left. split; [by eexists|]. exists 1000. split; [done|].
  change (IZR R_MIN) with 2. change (IZR R_MAX) with 250. lra.
Defined.

(** C9 as stated does not hold: a float radius far outside [R_MIN, R_MAX]
    is accepted, and the ball gets a drawn radius. *)
Lemma float_radius_is_not_rejected :
  radius_outside (PyFloat 1000.5)
  /\ Ball_init (PyFloat 1000.5) PyNone still_world
     = (Ok (default_ball still_world), after_default still_world)
  /\ radius (default_ball still_world) = 2%Z.
Proof.
  split_and!.
  - exists 1000.5. split; [done|].
    change (IZR R_MIN) with 2. change (IZR R_MAX) with 250. lra.
  - apply Ball_init_default.
  - by vm_compute.
Qed.

(** C10: a radius argument that is not an int is never looked at: the
    constructor behaves as if no radius had been given, and the ball gets
    the radius that randint draws from [R_MIN, R_MAX], any value of which
    can come out; likewise a heading argument that is neither an int nor a
    float is replaced by a drawn heading. *)
Theorem unchecked_arguments_are_replaced :
  (forall (radius_arg angle_arg : PyVal) (w : World),
     as_int radius_arg = None ->
     Ball_init radius_arg angle_arg w = Ball_init PyNone angle_arg w)
  /\ (forall (radius_arg angle_arg : PyVal) (w : World),
        as_number angle_arg = None ->
        Ball_init radius_arg angle_arg w = Ball_init radius_arg PyNone w)
  /\ (forall (radius_arg angle_arg : PyVal) (w : World),
        as_int radius_arg = None -> as_number angle_arg = None ->
        exists b w',
          Ball_init radius_arg angle_arg w = (Ok b, w')
          /\ radius b = (R_MIN + rng w (drawn w) mod (R_MAX - R_MIN + 1))%Z
          /\ (R_MIN <= radius b <= R_MAX)%Z
          /\ angle b = unit_draw (draw_at w 6) * 2 * PI)
  /\ (forall r : Z, (R_MIN <= r <= R_MAX)%Z ->
        exists w b w',
          Ball_init (PyFloat 1000.5) PyNone w = (Ok b, w') /\ radius b = r)
  /\ radius_outside (PyFloat 1000.5)
  /\ Ball_init (PyFloat 1000.5) (PyStr "up") still_world
     = (Ok (default_ball still_world), after_default still_world).
Proof.
  assert (Hr : forall radius_arg angle_arg w, as_int radius_arg = None ->
             Ball_init radius_arg angle_arg w = Ball_init PyNone angle_arg w).
  { intros radius_arg angle_arg w H. unfold Ball_init. by rewrite H. }
  assert (Ha : forall radius_arg angle_arg w, as_number angle_arg = None ->
             Ball_init radius_arg angle_arg w = Ball_init radius_arg PyNone w).
  { intros radius_arg angle_arg w H. unfold Ball_init. by rewrite H. }
  split_and!; [done | done | | | |].
  - intros radius_arg angle_arg w H1 H2.
    rewrite Hr, Ha, Ball_init_default by done.
    exists (default_ball w), (after_default w).
    pose proof (default_radius_range w) as Hrange.
    split_and!; [done | | apply Hrange | apply Hrange | done].
    unfold default_ball, default_radius, draw_at. cbn. by rewrite Nat.add_0_r.
  - intros r Hrange. exists (mkWorld 0 (fun _ => (r - R_MIN)%Z) 0).
    rewrite Hr, Ball_init_default by done.
    do 2 eexists. split; [done|].
    unfold default_ball, default_radius, draw_at. cbn [radius rng].
    rewrite Z.mod_small; lia.
  - exists 1000.5. split; [done|].
    change (IZR R_MIN) with 2. change (IZR R_MAX) with 250. lra.
  - by rewrite Hr, Ha, Ball_init_default.
Qed.

(** ** Placement *)

Lemma place_one_accept (fuel : nat) (balls : list Ball) (w : World) :
  existsb (is_collide (default_ball w)) balls = false ->
  place_one (S fuel) balls w = (Ok (balls ++ [default_ball w]), after_default w).
Proof.
  intros H. cbn [place_one]. rewrite bind_run, Ball_init_default. by rewrite H.
Qed.

Lemma place_one_reject (fuel : nat) (balls : list Ball) (w : World) :
  existsb (is_collide (default_ball w)) balls = true ->
  place_one (S fuel) balls w = place_one fuel balls (after_default w).
Proof.
  intros H. cbn [place_one]. rewrite bind_run, Ball_init_default. by rewrite H.
Qed.

Lemma place_one_spec (fuel : nat) (balls balls' : list Ball) (w w' : World) :
  place_one fuel balls w = (Ok balls', w') ->
  exists new_ball,
    balls' = balls ++ [new_ball]
    /\ Forall (fun b => is_collide new_ball b = false) balls.
Proof.
  revert w. induction fuel as [|fuel IH]; intros w; [done|].
  destruct (existsb (is_collide (default_ball w)) balls) eqn:He.
  - rewrite place_one_reject by done. apply IH.
  - rewrite place_one_accept by done. intros [= <- <-].
    exists (default_ball w). split; [done|].
    apply Forall_forall. intros b Hb.
    destruct (is_collide (default_ball w) b) eqn:Hc; [|done].
    assert (existsb (is_collide (default_ball w)) balls = true); [|congruence].
    apply existsb_exists. exists b. split; [|done].
    by apply list_elem_of_In.
Qed.

Lemma distance_sym (p q : R * R) : distance p q = distance q p.
Proof. unfold distance. f_equal. ring. Qed.

Lemma not_collide_apart (a b : Ball) :
  is_collide a b = false -> apart a b /\ apart b a.
Proof.
  unfold is_collide, apart. intros H%bool_decide_eq_false.
  rewrite (distance_sym (x b, y b)), (Z.add_comm (radius b)). lra.
Qed.

Lemma pairwise_apart_snoc (balls : list Ball) (new_ball : Ball) :
  pairwise_apart balls ->
  Forall (fun b => is_collide new_ball b = false) balls ->
  pairwise_apart (balls ++ [new_ball]).
Proof.
  intros Hp Hnew i j a b Hij Ha Hb.
  apply lookup_app_Some in Ha as [Ha | [Hi Ha]];
    apply lookup_app_Some in Hb as [Hb | [Hj Hb]].
  - by eapply Hp.
  - apply list_lookup_singleton_Some in Hb as [_ <-].
    eapply Forall_lookup_1 in Hnew; [|exact Ha].
    apply not_collide_apart in Hnew. tauto.
  - apply list_lookup_singleton_Some in Ha as [_ <-].
    eapply Forall_lookup_1 in Hnew; [|exact Hb].
    apply not_collide_apart in Hnew. tauto.
  - apply list_lookup_singleton_Some in Ha as [Ha _].
    apply list_lookup_singleton_Some in Hb as [Hb _]. lia.
Qed.

Lemma place_all_spec (fuel entrophy : nat) (balls balls' : list Ball)
    (w w' : World) :
  pairwise_apart balls ->
  place_all fuel entrophy balls w = (Ok balls', w') ->
  pairwise_apart balls' /\ length balls' = (length balls + entrophy)%nat.
Proof.
  revert balls w. induction entrophy as [|n IH]; intros balls w Hp.
  - intros [= <- <-]. split; [done | lia].
  - cbn [place_all]. rewrite bind_run.
    destruct (place_one fuel balls w) as [[balls1|e] w1] eqn:H1; [|done].
    apply place_one_spec in H1 as (nb & -> & Hnb).
    intros H2. apply IH in H2 as [Hp' Hlen].
    + split; [done|]. rewrite Hlen, length_app. cbn. lia.
    + by apply pairwise_apart_snoc.
Qed.

(** C5: whenever the placement loop of main finishes, it has accepted
    exactly the requested number of balls, and any two distinct accepted
    balls have their centres at least the sum of their radii apart (indeed
    is_collide fails on them, so they do not even touch). *)
Theorem placement_leaves_no_overlap (fuel entrophy : nat) (w w' : World)
    (balls : list Ball) :
  main_placement fuel entrophy w = (Ok balls, w') ->
  length balls = entrophy
  /\ forall (i j : nat) (bi bj : Ball),
       i <> j -> balls !! i = Some bi -> balls !! j = Some bj ->
       distance (x bi, y bi) (x bj, y bj) >= IZR (radius bi + radius bj)
       /\ is_collide bi bj = false.
Proof.
  intros H. apply place_all_spec in H as [Hp Hlen].
  - split; [done|]. intros i j bi bj Hij Hi Hj.
    pose proof (Hp i j bi bj Hij Hi Hj) as Ha. unfold apart in Ha.
    split; [lra|]. unfold is_collide. apply bool_decide_eq_false. lra.
  - intros i j a b _ Ha. by rewrite lookup_nil in Ha.
Qed.

Lemma centre_dist_sym (a b : Ball) : centre_dist a b = centre_dist b a.
Proof. unfold centre_dist. f_equal. ring. Qed.

Lemma demo_first :
  radius (default_ball demo_world) = 10%Z
  /\ x (default_ball demo_world) = 100 /\ y (default_ball demo_world) = 100.
Proof.
  unfold default_ball. cbn [radius x y].
  split_and!; [by vm_compute | |]; apply (f_equal IZR); by vm_compute.
Qed.

Lemma demo_second :
  radius (default_ball (after_default demo_world)) = 10%Z
  /\ x (default_ball (after_default demo_world)) = 105
  /\ y (default_ball (after_default demo_world)) = 100.
Proof.
  unfold default_ball. cbn [radius x y].
  split_and!; [by vm_compute | |]; apply (f_equal IZR); by vm_compute.
Qed.

Lemma demo_third :
  radius (default_ball (after_default (after_default demo_world))) = 10%Z
  /\ x (default_ball (after_default (after_default demo_world))) = 500
  /\ y (default_ball (after_default (after_default demo_world))) = 100.
Proof.
  unfold default_ball. cbn [radius x y].
  split_and!; [by vm_compute | |]; apply (f_equal IZR); by vm_compute.
Qed.

Lemma demo_second_rejected :
  is_collide (default_ball (after_default demo_world))
    (default_ball demo_world) = true.
Proof.
  destruct demo_first as (Hr0 & Hx0 & Hy0).
  destruct demo_second as (Hr1 & Hx1 & Hy1).
  apply is_collide_iff. rewrite centre_dist_sym.
  rewrite centre_dist_level by lra.
  unfold min_dist. rewrite Hr0, Hr1, Hx0, Hx1, plus_IZR. lra.
Qed.

Lemma demo_third_accepted :
  is_collide (default_ball (after_default (after_default demo_world)))
    (default_ball demo_world) = false.
Proof.
  destruct demo_first as (Hr0 & Hx0 & Hy0).
  destruct demo_third as (Hr2 & Hx2 & Hy2).
  apply not_true_iff_false. rewrite is_collide_iff, centre_dist_sym.
  rewrite centre_dist_level by lra.
  unfold min_dist. rewrite Hr0, Hr2, Hx0, Hx2, plus_IZR. lra.
Qed.

Lemma demo_placement :
  main_placement 2 2 demo_world
  = (Ok demo_balls, after_default (after_default (after_default demo_world))).
Proof.
  unfold main_placement. cbn [place_all].
  rewrite bind_run, place_one_accept by done. cbn [app].
  rewrite bind_run, place_one_reject
    by (cbn [existsb]; by rewrite demo_second_rejected).
  rewrite place_one_accept
    by (cbn [existsb]; by rewrite demo_third_accepted).
  done.
Qed.

Lemma placement_leaves_no_overlap_witness :
  length demo_balls = 2%nat
  /\ forall (i j : nat) (bi bj : Ball),
       i <> j -> demo_balls !! i = Some bi -> demo_balls !! j = Some bj ->
       distance (x bi, y bi) (x bj, y bj) >= IZR (radius bi + radius bj)
       /\ is_collide bi bj = false.
Proof.
  apply (placement_leaves_no_overlap 2 2 demo_world
           (after_default (after_default (after_default demo_world)))
           demo_balls).
  exact demo_placement.
Defined.

(** ** A degenerate pair, evaluated *)

Lemma stacked_contact : contact ballA stackedB = (1, 0, 1).
Proof. by apply coincident_contact. Qed.

Example stacked_pair_resolves :
  exists c1 c2,
    collide_pair ballA stackedB = Ok (c1, c2)
    /\ (x c1, y c1) = (90.5, 100) /\ (x c2, y c2) = (109.5, 100).
Proof.
  assert (Hn : normal ballA stackedB = (1, 0)).
  { unfold normal. rewrite stacked_contact. f_equal; field. }
  assert (Ho : overlap_of ballA stackedB = 19).
  { unfold overlap_of. rewrite stacked_contact.
    change (min_dist ballA stackedB) with (min_dist ballA ballB).
    rewrite example_min_dist. lra. }
  assert (Ha : approach ballA stackedB = -10).
  { unfold approach. rewrite Hn. unfold vx, vy. cbn.
    rewrite cos_PI, cos_0, sin_PI, sin_0. lra. }
  destruct example_mass as [Hm1 Hm2].
  change (m ballB) with (m stackedB) in Hm2.
  exists (bounced ballA stackedB).1, (bounced ballA stackedB).2.
  rewrite collide_pair_hit.
  - rewrite decide_False by lra. rewrite decide_False by lra.
    split; [by destruct (bounced ballA stackedB)|].
    rewrite bounced_fst, bounced_snd. unfold redirect, corrected.
    rewrite Hn, Ho. cbn. split; f_equal; lra.
  - rewrite coincident_dist by done.
    change (min_dist ballA stackedB) with (min_dist ballA ballB).
    rewrite example_min_dist. lra.
Qed.

(** ** Every constructed ball is well formed *)

Lemma unit_draw_range (k : Z) : 0 <= unit_draw k < 1.
Proof.
  unfold unit_draw.
  assert (Hp : (0 < 2 ^ 53)%Z) by (by vm_compute).
  pose proof (Z.mod_pos_bound k (2 ^ 53) Hp) as [Hlo Hhi].
  apply IZR_le in Hlo. apply IZR_lt in Hhi. apply IZR_lt in Hp.
  split.
  - apply Rmult_le_pos; [done|]. left. by apply Rinv_0_lt_compat.
  - apply (Rmult_lt_reg_r (IZR (2 ^ 53))); [done|].
    unfold Rdiv. rewrite Rmult_assoc, Rinv_l by lra. lra.
Qed.

Lemma Ball_init_wf (radius_arg angle_arg : PyVal) (w w' : World) (b : Ball) :
  Ball_init radius_arg angle_arg w = (Ok b, w') ->
  wf_ball b
  /\ IZR (radius b) <= x b <= IZR WIDTH - IZR (radius b)
  /\ IZR (radius b) <= y b <= IZR HEIGHT - IZR (radius b).
Proof.
  assert (HR : (R_MAX = 250 /\ R_MIN = 2 /\ WIDTH = 1000 /\ HEIGHT = 1000)%Z)
    by (by vm_compute).
  unfold Ball_init. fold (radius_stage radius_arg).
  rewrite bind_run. unfold fresh_id at 1. rewrite bind_run.
  destruct (radius_stage_run radius_arg
              (mkWorld (Ball_ID w + 1) (rng w) (drawn w)))
    as [[w1 ->] | (r & w1 & -> & Hr)]; [done|].
  do 4 (rewrite bind_run, randint_run by lia).
  rewrite bind_run, random_run, bind_run.
  set (w2 := after_draws 1 _).
  set (stage := match as_number angle_arg with Some _ => _ | None => _ end).
  assert (Hstage : (exists w3, stage w2 = (Raise AssertionError, w3))
                    \/ exists a w3, stage w2 = (Ok a, w3)).
  { unfold stage. destruct (as_number angle_arg) as [a|].
    - rewrite bind_run, assert_run. case_decide; [right | left]; eauto.
    - right. rewrite bind_run, random_run. eauto. }
  destruct Hstage as [[w3 ->] | (a & w3 & ->)]; [done|].
  rewrite bind_run, randint_run by lia.
  rewrite bind_run, randint_run by lia.
  unfold mret, M_ret. intros [= <- _]. cbn [radius x y v].
  assert (Hw : (0 < WIDTH - r - r + 1)%Z) by lia.
  assert (Hh : (0 < HEIGHT - r - r + 1)%Z) by lia.
  split_and!.
  { split; [done|]. cbn [v].
    pose proof (unit_draw_range
                  (draw_at (after_draws 1 (after_draws 1 (after_draws 1
                     (after_draws 1 w1)))) 0)) as [Hu _].
    apply Rmult_le_pos; [done|]. apply IZR_le. by vm_compute. }
  all: rewrite <- ?minus_IZR; apply IZR_le.
  all: match goal with
       | |- context [(?k mod ?n)%Z] =>
           pose proof (Z.mod_pos_bound k n ltac:(lia))
       end; lia.
Qed.

(** ** Fuel only bounds the search *)

Lemma place_one_more_fuel (fuel extra : nat) (balls balls' : list Ball)
    (w w' : World) :
  place_one fuel balls w = (Ok balls', w') ->
  place_one (fuel + extra) balls w = (Ok balls', w').
Proof.
  revert w. induction fuel as [|fuel IH]; intros w; [done|].
  change (S fuel + extra)%nat with (S (fuel + extra)).
  destruct (existsb (is_collide (default_ball w)) balls) eqn:He.
  - rewrite !place_one_reject by done. apply IH.
  - by rewrite !place_one_accept by done.
Qed.

Lemma place_all_more_fuel (fuel extra entrophy : nat)
    (balls balls' : list Ball) (w w' : World) :
  place_all fuel entrophy balls w = (Ok balls', w') ->
  place_all (fuel + extra) entrophy balls w = (Ok balls', w').
Proof.
  revert balls w. induction entrophy as [|n IH]; intros balls w; [done|].
  cbn [place_all]. rewrite !bind_run.
  destruct (place_one fuel balls w) as [[balls1|e] w1] eqn:H1; [|done].
  rewrite (place_one_more_fuel _ extra _ _ _ _ H1). apply IH.
Qed.

Lemma first_ball_is_placed (fuel : nat) (w : World) :
  main_placement (S fuel) 1 w = (Ok [default_ball w], after_default w).
Proof.
  unfold main_placement. cbn [place_all].
  by rewrite bind_run, place_one_accept.
Qed.

(** ** Well-formedness is kept by the whole loop *)

Lemma tick_wf (balls : list Ball) :
  Forall wf_ball balls ->
  exists balls', tick balls = Ok balls' /\ Forall wf_ball balls'.
Proof.
  intros Hwf. unfold tick.
  assert (Hm : Forall wf_ball (map move balls)).
  { apply Forall_fmap. eapply Forall_impl; [exact Hwf|].
    intros b Hb. by apply move_wf. }
  destruct (collisions_ok_sound _ Hm) as (balls1 & -> & Hwf1 & _).
  cbn. eexists. split; [done|].
  apply Forall_forall. intros b [_ Hb]%list_elem_of_filter.
  revert b Hb. by apply Forall_forall.
Qed.

Lemma ticks_wf (n : nat) (balls : list Ball) :
  Forall wf_ball balls ->
  exists balls', ticks n balls = Ok balls' /\ Forall wf_ball balls'.
Proof.
  revert balls. induction n as [|n IH]; intros balls Hwf; [by eexists|].
  destruct (tick_wf balls Hwf) as (balls1 & H1 & Hwf1).
  cbn [ticks]. rewrite H1. cbn. by apply IH.
Qed.

(** * Further properties of the engine *)

(** ** No pair ever divides by zero *)

Lemma centre_dist_nonneg (b1 b2 : Ball) : 0 <= centre_dist b1 b2.
Proof. unfold centre_dist. apply sqrt_pos. Qed.

Lemma overlap_mass_pos (b1 b2 : Ball) :
  centre_dist b1 b2 < min_dist b1 b2 -> 0 < m b1 + m b2.
Proof.
  intros Hd. pose proof (centre_dist_nonneg b1 b2) as H0.
  unfold min_dist in Hd. assert (Hr : (0 < radius b1 + radius b2)%Z).
  { apply lt_IZR. lra. }
  unfold m. rewrite <- plus_IZR. apply IZR_lt.
  replace (radius b1 ^ 3 + radius b2 ^ 3)%Z
    with ((radius b1 + radius b2)
          * (radius b1 * radius b1 - radius b1 * radius b2
             + radius b2 * radius b2))%Z by ring.
  apply Z.mul_pos_pos; [done|].
  generalize dependent (radius b2). generalize (radius b1).
  intros a b Hd Hr. clear Hd H0. pose proof (Z.square_nonneg (a - b)).
  destruct (Z.eq_dec a 0%Z) as [->|Ha]; nia.
Qed.

Lemma collide_pair_resolved (b1 b2 : Ball) :
  collide_pair b1 b2 = Ok (resolved b1 b2).
Proof.
  unfold resolved. case_decide as Hd.
  - pose proof (overlap_mass_pos b1 b2 Hd).
    rewrite collide_pair_hit by done. case_decide; [done|].
    by rewrite decide_False by lra.
  - by apply collide_pair_miss.
Qed.

Lemma pair_step_run (i j : nat) (balls : list Ball) (b1 b2 : Ball) :
  balls !! i = Some b1 -> balls !! j = Some b2 ->
  pair_step i balls j
  = Ok (<[j := (resolved b1 b2).2]> (<[i := (resolved b1 b2).1]> balls)).
Proof.
  intros H1 H2. unfold pair_step. rewrite H1, H2, collide_pair_resolved.
  cbn. by destruct (resolved b1 b2).
Qed.

(** The two loops of [collisions] keep whatever every pair step keeps. *)
Lemma collisions_keeps (P : list Ball -> Prop) (balls : list Ball) :
  (forall (bs : list Ball) (i j : nat) (b1 b2 : Ball),
     P bs -> length bs = length balls -> (i < j)%nat ->
     bs !! i = Some b1 -> bs !! j = Some b2 ->
     P (<[j := (resolved b1 b2).2]> (<[i := (resolved b1 b2).1]> bs))) ->
  P balls ->
  exists balls', collisions balls = Ok balls'
                 /\ P balls' /\ length balls' = length balls.
Proof.
  intros Hstep HP. unfold collisions. set (n := length balls).
  pose (Q := fun bs : list Ball => P bs /\ length bs = n).
  destruct (for_each_ok Q (fun i => (i < n)%nat)
              (fun bs i => for_each (pair_step i)
                             (seq (i + 1) (n - (i + 1))) bs)
              (seq 0 n) balls) as (balls' & Hrun & HQ).
  - intros bs i HQ Hi.
    apply (for_each_ok Q (fun j => (i < j < n)%nat)); [| |done].
    + intros bs' j [HP' Hlen] [Hij Hj].
      destruct (lookup_lt_is_Some_2 bs' i) as [b1 Hb1]; [lia|].
      destruct (lookup_lt_is_Some_2 bs' j) as [b2 Hb2]; [lia|].
      rewrite (pair_step_run i j bs' b1 b2) by done.
      eexists. split; [done|]. split.
      * by apply Hstep.
      * by rewrite !length_insert.
    + apply Forall_forall. intros j Hj%elem_of_seq. lia.
  - apply Forall_forall. intros i Hi%elem_of_seq. lia.
  - done.
  - exists balls'. by destruct HQ.
Qed.

(** ** What one pair body keeps *)

Lemma corrected_fst (b1 b2 : Ball) :
  (corrected b1 b2).1
  = set_y (set_x b1 (x b1 - overlap_of b1 b2 * (normal b1 b2).1 * 0.5))
      (y b1 - overlap_of b1 b2 * (normal b1 b2).2 * 0.5).
Proof. unfold corrected. by destruct (normal b1 b2). Qed.

Lemma corrected_snd (b1 b2 : Ball) :
  (corrected b1 b2).2
  = set_y (set_x b2 (x b2 + overlap_of b1 b2 * (normal b1 b2).1 * 0.5))
      (y b2 + overlap_of b1 b2 * (normal b1 b2).2 * 0.5).
Proof. unfold corrected. by destruct (normal b1 b2). Qed.

Lemma resolved_shape (b1 b2 : Ball) :
  shape (resolved b1 b2).1 = shape b1 /\ shape (resolved b1 b2).2 = shape b2.
Proof.
  unfold resolved. repeat case_decide; [| |done].
  - by rewrite corrected_fst, corrected_snd.
  - by rewrite bounced_fst, bounced_snd, corrected_fst, corrected_snd.
Qed.

Lemma resolved_momentum (b1 b2 : Ball) :
  momentum (resolved b1 b2).1 (resolved b1 b2).2 = momentum b1 b2.
Proof.
  unfold resolved. repeat case_decide; [| |done].
  - by rewrite corrected_fst, corrected_snd.
  - apply bounced_momentum.
    pose proof (overlap_mass_pos b1 b2). lra.
Qed.

Lemma resolved_kinetic (b1 b2 : Ball) :
  kinetic (resolved b1 b2).1 (resolved b1 b2).2 = kinetic b1 b2.
Proof.
  unfold resolved. repeat case_decide; [| |done].
  - by rewrite corrected_fst, corrected_snd.
  - apply bounced_kinetic.
    pose proof (overlap_mass_pos b1 b2). lra.
Qed.

Lemma resolved_midpoint (b1 b2 : Ball) :
  x (resolved b1 b2).1 + x (resolved b1 b2).2 = x b1 + x b2
  /\ y (resolved b1 b2).1 + y (resolved b1 b2).2 = y b1 + y b2.
Proof.
  unfold resolved. repeat case_decide; [| |done].
  - rewrite corrected_fst, corrected_snd. cbn. lra.
  - rewrite bounced_fst, bounced_snd, corrected_fst, corrected_snd. cbn. lra.
Qed.

(** ** Sums over the list under index updates *)

Lemma total_cons (f : Ball -> R) (a : Ball) (balls : list Ball) :
  total f (a :: balls) = f a + total f balls.
Proof. done. Qed.

Lemma total_insert (f : Ball -> R) (balls : list Ball) (i : nat) (b c : Ball) :
  balls !! i = Some b ->
  total f (<[i := c]> balls) = total f balls - f b + f c.
Proof.
  revert i. induction balls as [|a balls IH]; intros [|i] H; try done.
  - injection H as ->.
    change (<[0%nat := c]> (b :: balls)) with (c :: balls).
    rewrite !total_cons. lra.
  - change (<[S i := c]> (a :: balls)) with (a :: <[i := c]> balls).
    rewrite !total_cons, (IH i H). lra.
Qed.

Lemma total_insert_pair (f : Ball -> R) (balls : list Ball) (i j : nat)
    (b1 b2 c1 c2 : Ball) :
  i <> j -> balls !! i = Some b1 -> balls !! j = Some b2 ->
  f c1 + f c2 = f b1 + f b2 ->
  total f (<[j := c2]> (<[i := c1]> balls)) = total f balls.
Proof.
  intros Hij H1 H2 Hf.
  rewrite (total_insert f _ j b2) by (by rewrite list_lookup_insert_ne).
  rewrite (total_insert f _ i b1) by done. lra.
Qed.

Lemma fmap_insert_pair {B : Type} (g : Ball -> B) (balls : list Ball)
    (i j : nat) (b1 b2 c1 c2 : Ball) :
  balls !! i = Some b1 -> balls !! j = Some b2 ->
  g c1 = g b1 -> g c2 = g b2 ->
  g <$> <[j := c2]> (<[i := c1]> balls) = g <$> balls.
Proof.
  intros H1 H2 Hg1 Hg2. rewrite !list_fmap_insert, Hg1, Hg2.
  rewrite (list_insert_id (g <$> balls) i) by (by rewrite list_lookup_fmap, H1).
  by rewrite list_insert_id by (by rewrite list_lookup_fmap, H2).
Qed.

(** X2: a whole pass of the engine over any list of balls, with any number
    of simultaneous contacts, leaves the total momentum (both components) and
    the total kinetic energy of the list unchanged. *)
Theorem engine_conserves_totals (balls : list Ball) :
  exists balls',
    collisions balls = Ok balls'
    /\ total px balls' = total px balls
    /\ total py balls' = total py balls
    /\ total energy balls' = total energy balls.
Proof.
  destruct (collisions_keeps
              (fun bs => total px bs = total px balls
                         /\ total py bs = total py balls
                         /\ total energy bs = total energy balls) balls)
    as (balls' & Hrun & HP & _); [|done|by exists balls'].
  intros bs i j b1 b2 (Hx & Hy & He) _ Hij H1 H2.
  pose proof (resolved_momentum b1 b2) as Hm. unfold momentum in Hm.
  injection Hm as Hmx Hmy.
  pose proof (resolved_kinetic b1 b2) as Hk. unfold kinetic in Hk.
  rewrite <- Hx, <- Hy, <- He.
  split_and!; apply (total_insert_pair _ _ i j b1 b2); try done; try lia.
Qed.

(** X3: a pass of the engine never changes the number of balls, their
    order, identifiers, radii or colours, and it keeps the sum of the x
    coordinates and the sum of the y coordinates (each correction moves the
    two balls by opposite amounts, whatever their masses). *)
Theorem engine_keeps_shapes (balls : list Ball) :
  exists balls',
    collisions balls = Ok balls'
    /\ length balls' = length balls
    /\ shape <$> balls' = shape <$> balls
    /\ total (fun b => x b) balls' = total (fun b => x b) balls
    /\ total (fun b => y b) balls' = total (fun b => y b) balls.
Proof.
  destruct (collisions_keeps
              (fun bs => shape <$> bs = shape <$> balls
                         /\ total (fun b => x b) bs = total (fun b => x b) balls
                         /\ total (fun b => y b) bs = total (fun b => y b) balls)
              balls)
    as (balls' & Hrun & HP & Hlen); [|done|by exists balls'].
  intros bs i j b1 b2 (Hs & Hx & Hy) _ Hij H1 H2.
  destruct (resolved_shape b1 b2) as [Hs1 Hs2].
  destruct (resolved_midpoint b1 b2) as [Hm1 Hm2].
  rewrite <- Hs, <- Hx, <- Hy. split_and!.
  - by apply (fmap_insert_pair shape _ i j b1 b2).
  - apply (total_insert_pair _ _ i j b1 b2); try done; lia.
  - apply (total_insert_pair _ _ i j b1 b2); try done; lia.
Qed.

Lemma collisions_idle (balls : list Ball) :
  no_overlap balls -> collisions balls = Ok balls.
Proof.
  intros Hno.
  destruct (collisions_keeps (fun bs => bs = balls) balls)
    as (balls' & Hrun & -> & _); [|done|done].
  intros bs i j b1 b2 -> _ Hij H1 H2.
  unfold resolved. rewrite decide_False by (eapply Hno; [|done..]; lia).
  cbn. rewrite (list_insert_id balls i) by done. by apply list_insert_id.
Qed.

Lemma tangent_no_overlap : no_overlap [ballA'; ballB'].
Proof.
  intros i j a b Hij Ha Hb.
  assert (Hd : centre_dist a b = 20).
  { destruct i as [|[|i]], j as [|[|j]]; try done;
      injection Ha as <-; injection Hb as <-.
    - apply tangent_dist.
    - rewrite centre_dist_sym. apply tangent_dist. }
  assert (Hm : min_dist a b = 20).
  { destruct i as [|[|i]], j as [|[|j]]; try done;
      injection Ha as <-; injection Hb as <-;
      unfold min_dist; cbn; rewrite plus_IZR; lra. }
  lra.
Qed.

Lemma apart_no_overlap (balls : list Ball) :
  pairwise_apart balls -> no_overlap balls.
Proof.
  intros Hp i j a b Hij Ha Hb. pose proof (Hp i j a b Hij Ha Hb) as H.
  unfold apart in H. rewrite distance_centres in H. unfold min_dist. lra.
Qed.

(** ** The pair after the positional correction *)

Lemma resolved_hit_positions (b1 b2 : Ball) :
  centre_dist b1 b2 < min_dist b1 b2 ->
  x (resolved b1 b2).1 = x b1 - overlap_of b1 b2 * (normal b1 b2).1 * 0.5
  /\ y (resolved b1 b2).1 = y b1 - overlap_of b1 b2 * (normal b1 b2).2 * 0.5
  /\ x (resolved b1 b2).2 = x b2 + overlap_of b1 b2 * (normal b1 b2).1 * 0.5
  /\ y (resolved b1 b2).2 = y b2 + overlap_of b1 b2 * (normal b1 b2).2 * 0.5.
Proof.
  intros Hd. unfold resolved. rewrite decide_True by done. case_decide.
  - by rewrite corrected_fst, corrected_snd.
  - by rewrite bounced_fst, bounced_snd, corrected_fst, corrected_snd.
Qed.

Lemma resolved_min_dist (b1 b2 : Ball) :
  min_dist (resolved b1 b2).1 (resolved b1 b2).2 = min_dist b1 b2.
Proof.
  destruct (resolved_shape b1 b2) as [[= _ H1 _] [= _ H2 _]].
  unfold min_dist. by rewrite H1, H2.
Qed.

Lemma resolved_delta (b1 b2 : Ball) :
  centre_dist b1 b2 <> 0 -> centre_dist b1 b2 < min_dist b1 b2 ->
  x (resolved b1 b2).2 - x (resolved b1 b2).1
  = (x b2 - x b1) * (min_dist b1 b2 / centre_dist b1 b2)
  /\ y (resolved b1 b2).2 - y (resolved b1 b2).1
     = (y b2 - y b1) * (min_dist b1 b2 / centre_dist b1 b2).
Proof.
  intros Hnz Hd.
  destruct (resolved_hit_positions b1 b2 Hd) as (-> & -> & -> & ->).
  unfold overlap_of, normal, contact. rewrite decide_False by done.
  cbn [fst snd]. replace 0.5 with (/ 2) by lra. split; field; done.
Qed.

Lemma resolved_tangent (b1 b2 : Ball) :
  centre_dist b1 b2 <> 0 -> centre_dist b1 b2 < min_dist b1 b2 ->
  centre_dist (resolved b1 b2).1 (resolved b1 b2).2 = min_dist b1 b2.
Proof.
  intros Hnz Hd. pose proof (centre_dist_nonneg b1 b2) as H0.
  destruct (resolved_delta b1 b2 Hnz Hd) as [Hx Hy].
  unfold centre_dist at 1. rewrite Hx, Hy.
  set (k := min_dist b1 b2 / centre_dist b1 b2).
  assert (Hk : 0 <= k).
  { unfold k. apply Rmult_le_pos; [lra|]. left. apply Rinv_0_lt_compat. lra. }
  replace ((x b2 - x b1) * k * ((x b2 - x b1) * k)
           + (y b2 - y b1) * k * ((y b2 - y b1) * k))
    with (((x b2 - x b1) * (x b2 - x b1) + (y b2 - y b1) * (y b2 - y b1))
          * (k * k)) by ring.
  rewrite sqrt_mult_alt
    by (apply Rplus_le_le_0_compat; apply Rle_0_sqr).
  fold (centre_dist b1 b2).
  rewrite sqrt_square by done. unfold k. field. done.
Qed.

(** X4: computed in exact real arithmetic, an overlapping pair whose centres
    differ comes out of one pass with its centres exactly the sum of the
    radii apart, on the same line as before: the separation vector is the
    old one scaled by the sum of the radii over the old distance. *)
Theorem correction_restores_contact_distance (b1 b2 : Ball) :
  centre_dist b1 b2 <> 0 -> centre_dist b1 b2 < min_dist b1 b2 ->
  exists c1 c2,
    collisions [b1; b2] = Ok [c1; c2]
    /\ distance (x c1, y c1) (x c2, y c2) = IZR (radius b1 + radius b2)
    /\ x c2 - x c1 = (x b2 - x b1) * (min_dist b1 b2 / centre_dist b1 b2)
    /\ y c2 - y c1 = (y b2 - y b1) * (min_dist b1 b2 / centre_dist b1 b2)
    /\ 1 < min_dist b1 b2 / centre_dist b1 b2.
Proof.
  intros Hnz Hd. exists (resolved b1 b2).1, (resolved b1 b2).2.
  pose proof (resolved_tangent b1 b2 Hnz Hd) as Ht.
  destruct (resolved_delta b1 b2 Hnz Hd) as [Hx Hy].
  pose proof (centre_dist_nonneg b1 b2) as H0.
  split_and!.
  - rewrite collisions_pair, collide_pair_resolved. cbn.
    by destruct (resolved b1 b2).
  - by rewrite distance_centres.
  - done.
  - done.
  - apply (Rmult_lt_reg_r (centre_dist b1 b2)); [lra|].
    unfold Rdiv. rewrite Rmult_assoc, Rinv_l by done. lra.
Qed.

Lemma correction_restores_contact_distance_witness :
  exists c1 c2,
    collisions [ballA; ballB] = Ok [c1; c2]
    /\ distance (x c1, y c1) (x c2, y c2) = IZR (radius ballA + radius ballB)
    /\ x c2 - x c1
       = (x ballB - x ballA) * (min_dist ballA ballB / centre_dist ballA ballB)
    /\ y c2 - y c1
       = (y ballB - y ballA) * (min_dist ballA ballB / centre_dist ballA ballB)
    /\ 1 < min_dist ballA ballB / centre_dist ballA ballB.
Proof.
  apply (correction_restores_contact_distance ballA ballB).
  - rewrite example_dist. lra.
  - rewrite example_dist, example_min_dist. lra.
Defined.

(** X5: two balls with the same centre are pushed apart along the x axis
    only, to a centre distance one less than the sum of their radii: the
    pass leaves them overlapping. *)
Theorem coincident_pair_stays_overlapped (b1 b2 : Ball) :
  x b1 = x b2 -> y b1 = y b2 -> 1 <= min_dist b1 b2 ->
  exists c1 c2,
    collisions [b1; b2] = Ok [c1; c2]
    /\ distance (x c1, y c1) (x c2, y c2) = IZR (radius c1 + radius c2) - 1
    /\ y c1 = y c2
    /\ x c2 - x c1 = IZR (radius c1 + radius c2) - 1.
Proof.
  intros Hx Hy Hm. exists (resolved b1 b2).1, (resolved b1 b2).2.
  pose proof (coincident_dist b1 b2 Hx Hy) as Hz.
  assert (Hd : centre_dist b1 b2 < min_dist b1 b2) by lra.
  pose proof (resolved_min_dist b1 b2) as Hmin. unfold min_dist in Hmin.
  destruct (resolved_hit_positions b1 b2 Hd) as (Hx1 & Hy1 & Hx2 & Hy2).
  assert (Hn : normal b1 b2 = (1, 0)).
  { unfold normal. rewrite coincident_contact by done. f_equal; field. }
  assert (Ho : overlap_of b1 b2 = min_dist b1 b2 - 1).
  { unfold overlap_of. by rewrite coincident_contact. }
  rewrite Hn, Ho in *. cbn [fst snd] in *.
  assert (Hdx : x (resolved b1 b2).2 - x (resolved b1 b2).1
                = min_dist b1 b2 - 1) by lra.
  assert (Hdy : y (resolved b1 b2).2 - y (resolved b1 b2).1 = 0) by lra.
  split_and!.
  - rewrite collisions_pair, collide_pair_resolved. cbn.
    by destruct (resolved b1 b2).
  - rewrite distance_centres, Hmin. unfold centre_dist. rewrite Hdx, Hdy.
    fold (min_dist b1 b2).
    replace ((min_dist b1 b2 - 1) * (min_dist b1 b2 - 1) + 0 * 0)
      with ((min_dist b1 b2 - 1) * (min_dist b1 b2 - 1)) by ring.
    apply sqrt_square. lra.
  - lra.
  - rewrite Hmin. fold (min_dist b1 b2). lra.
Qed.

Lemma coincident_pair_stays_overlapped_witness :
  exists c1 c2,
    collisions [ballA; stackedB] = Ok [c1; c2]
    /\ distance (x c1, y c1) (x c2, y c2) = IZR (radius c1 + radius c2) - 1
    /\ y c1 = y c2
    /\ x c2 - x c1 = IZR (radius c1 + radius c2) - 1.
Proof.
  apply (coincident_pair_stays_overlapped ballA stackedB); [done | done |].
  change (min_dist ballA stackedB) with (min_dist ballA ballB).
  rewrite example_min_dist. lra.
Defined.

(** ** The velocities after the impulse *)

Lemma resolved_bounce (b1 b2 : Ball) :
  centre_dist b1 b2 < min_dist b1 b2 -> approach b1 b2 <= 0 ->
  resolved b1 b2 = bounced b1 b2.
Proof.
  intros Hd Ha. unfold resolved. rewrite decide_True by done.
  by rewrite decide_False by lra.
Qed.

(** X6: after the impulse the relative velocity along the normal is the
    opposite of what it was, and the relative speed is unchanged
    (restitution 1). *)
Theorem impulse_reverses_approach (b1 b2 : Ball) :
  centre_dist b1 b2 < min_dist b1 b2 -> approach b1 b2 <= 0 ->
  exists c1 c2,
    collisions [b1; b2] = Ok [c1; c2]
    /\ (vx c2 - vx c1) * (normal b1 b2).1 + (vy c2 - vy c1) * (normal b1 b2).2
       = - approach b1 b2
    /\ (vx c2 - vx c1) ^ 2 + (vy c2 - vy c1) ^ 2
       = (vx b2 - vx b1) ^ 2 + (vy b2 - vy b1) ^ 2.
Proof.
  intros Hd Ha. exists (bounced b1 b2).1, (bounced b1 b2).2.
  pose proof (overlap_mass_pos b1 b2 Hd) as Hm.
  split.
  { rewrite collisions_pair, collide_pair_resolved, resolved_bounce by done.
    cbn. by destruct (bounced b1 b2). }
  rewrite bounced_fst, bounced_snd, !redirect_vx, !redirect_vy.
  pose proof (normal_unit b1 b2) as Hn.
  unfold velocity1, velocity2, impulse_of, approach.
  destruct (normal b1 b2) as [nx ny]. cbn [fst snd] in *.
  set (p := (vx b2 - vx b1) * nx + (vy b2 - vy b1) * ny).
  assert (HJ : 2 * p / (m b1 + m b2) * (m b1 + m b2) = 2 * p)
    by (field; lra).
  revert HJ. generalize (2 * p / (m b1 + m b2)). intros J HJ.
  split.
  - transitivity (p - J * (m b1 + m b2) * (nx * nx + ny * ny)).
    + unfold p. ring.
    + rewrite HJ, Hn. ring.
  - apply Rminus_diag_uniq.
    transitivity (J * (m b1 + m b2)
                  * (J * (m b1 + m b2) * (nx * nx + ny * ny) - 2 * p)).
    + unfold p. ring.
    + rewrite HJ, Hn. ring.
Qed.

Lemma impulse_reverses_approach_witness :
  exists c1 c2,
    collisions [ballA; ballB] = Ok [c1; c2]
    /\ (vx c2 - vx c1) * (normal ballA ballB).1
       + (vy c2 - vy c1) * (normal ballA ballB).2
       = - approach ballA ballB
    /\ (vx c2 - vx c1) ^ 2 + (vy c2 - vy c1) ^ 2
       = (vx ballB - vx ballA) ^ 2 + (vy ballB - vy ballA) ^ 2.
Proof.
  apply (impulse_reverses_approach ballA ballB).
  - rewrite example_dist, example_min_dist. lra.
  - rewrite example_approach. lra.
Defined.

(** ** The heading the engine writes *)

Lemma atan2_range (b a : R) : - PI < atan2 b a <= PI.
Proof.
  unfold atan2. pose proof PI_RGT_0 as Hpi.
  pose proof (atan_bound (b / a)) as Hb.
  repeat case_decide; try lra.
  - assert (b / a <= 0).
    { unfold Rdiv. assert (/ a < 0) by (by apply Rinv_lt_0_compat). nra. }
    assert (atan (b / a) <= 0).
    { rewrite <- atan_0. destruct (Req_dec (b / a) 0) as [->|];
        [lra | left; apply atan_increasing; lra]. }
    lra.
  - assert (0 < b / a).
    { unfold Rdiv. assert (/ a < 0) by (by apply Rinv_lt_0_compat). nra. }
    assert (0 < atan (b / a)).
    { rewrite <- atan_0. by apply atan_increasing. }
    lra.
Qed.

Lemma atan2_closed_range (b a : R) : - PI <= atan2 b a <= PI.
Proof. pose proof (atan2_range b a). lra. Qed.

Lemma atan2_negative (b a : R) : b < 0 -> atan2 b a < 0.
Proof.
  intros Hb. unfold atan2. pose proof PI_RGT_0 as Hpi.
  pose proof (atan_bound (b / a)) as Hbd.
  repeat case_decide; try lra.
  assert (b / a < 0).
  { unfold Rdiv. assert (0 < / a) by (by apply Rinv_0_lt_compat). nra. }
  rewrite <- atan_0. by apply atan_increasing.
Qed.

Lemma centre_dist_upright (b1 b2 : Ball) :
  x b1 = x b2 -> y b1 <= y b2 -> centre_dist b1 b2 = y b2 - y b1.
Proof.
  intros Hx Hy. unfold centre_dist. rewrite Hx.
  replace ((x b2 - x b2) * (x b2 - x b2) + (y b2 - y b1) * (y b2 - y b1))
    with ((y b2 - y b1) * (y b2 - y b1)) by ring.
  apply sqrt_square. lra.
Qed.

Lemma upright_dist : centre_dist vertA vertB = 15.
Proof. rewrite centre_dist_upright; cbn; lra. Qed.

Lemma upright_normal : normal vertA vertB = (0, 1).
Proof.
  unfold normal, contact. rewrite upright_dist.
  rewrite decide_False by lra. cbn. f_equal; field.
Qed.

Lemma upright_approach : approach vertA vertB = -10.
Proof.
  unfold approach. rewrite upright_normal. unfold vx, vy. cbn.
  rewrite sin_PI2, sin_3PI2. lra.
Qed.

Lemma upright_new_vy :
  vy vertA + impulse_of vertA vertB * m vertB * (normal vertA vertB).2 = -5.
Proof.
  unfold impulse_of. rewrite upright_approach, upright_normal.
  destruct example_mass as [Hm1 Hm2].
  change (m vertA) with (m ballA). change (m vertB) with (m ballB).
  rewrite Hm1, Hm2. unfold vy. cbn. rewrite sin_PI2. field.
Qed.

(** X7: the heading the engine stores after an impulse is the atan2 of the
    new velocity, within [-pi, pi]; whenever the new vertical velocity
    component of the first ball is negative its stored heading is negative,
    that is outside the [0, 2*pi] the constructor asserts. *)
Theorem engine_heading_leaves_constructor_range (b1 b2 : Ball) :
  centre_dist b1 b2 < min_dist b1 b2 -> approach b1 b2 <= 0 ->
  vy b1 + impulse_of b1 b2 * m b2 * (normal b1 b2).2 < 0 ->
  exists c1 c2,
    collisions [b1; b2] = Ok [c1; c2]
    /\ - PI <= angle c1 < 0
    /\ ~ (0 <= angle c1 <= 2 * PI)
    /\ vy c1 = vy b1 + impulse_of b1 b2 * m b2 * (normal b1 b2).2
    /\ - PI <= angle c2 <= PI.
Proof.
  intros Hd Ha Hvy. exists (bounced b1 b2).1, (bounced b1 b2).2.
  split.
  { rewrite collisions_pair, collide_pair_resolved, resolved_bounce by done.
    cbn. by destruct (bounced b1 b2). }
  assert (Hv : (velocity1 b1 b2).2
               = vy b1 + impulse_of b1 b2 * m b2 * (normal b1 b2).2).
  { unfold velocity1. destruct (normal b1 b2). cbn. ring. }
  rewrite bounced_fst, bounced_snd, redirect_vy, Hv.
  unfold redirect. cbn [angle set_angle set_v]. rewrite Hv.
  pose proof (atan2_closed_range
                (vy b1 + impulse_of b1 b2 * m b2 * (normal b1 b2).2)
                (velocity1 b1 b2).1) as Hr.
  pose proof (atan2_negative _ (velocity1 b1 b2).1 Hvy) as Hneg.
  split_and!; try lra; try done.
  all: apply atan2_closed_range.
Qed.

Lemma engine_heading_leaves_constructor_range_witness :
  exists c1 c2,
    collisions [vertA; vertB] = Ok [c1; c2]
    /\ - PI <= angle c1 < 0
    /\ ~ (0 <= angle c1 <= 2 * PI)
    /\ vy c1 = vy vertA + impulse_of vertA vertB * m vertB
                          * (normal vertA vertB).2
    /\ - PI <= angle c2 <= PI.
Proof.
  apply (engine_heading_leaves_constructor_range vertA vertB).
  - rewrite upright_dist. change (min_dist vertA vertB) with (min_dist ballA ballB).
    rewrite example_min_dist. lra.
  - rewrite upright_approach. lra.
  - rewrite upright_new_vy. lra.
Defined.

(** * Further properties of motion *)

Lemma cos_pi_sub (a : R) : cos (PI - a) = - cos a.
Proof. apply Rtrigo_facts.cos_pi_minus. Qed.

(** X8: move() flips the sign of the horizontal velocity component
    exactly when the side test fires and of the vertical one exactly when
    the floor test fires, leaves the other component alone, never moves the
    centre farther than the speed, and never touches identifier, radius or
    colour. *)
Theorem wall_reflection_law (b : Ball) :
  vx (move b) = (if decide (hits_side b) then - vx b else vx b)
  /\ vy (move b) = (if decide (hits_floor b) then - vy b else vy b)
  /\ (x (move b) - x b) ^ 2 + (y (move b) - y b) ^ 2 <= v b ^ 2
  /\ shape (move b) = shape b.
Proof.
  rewrite move_refines. unfold move_spec, vx, vy, candidate.
  cbn [v angle x y fst snd shape ball_id radius color].
  pose proof (sin2_cos2 (angle b)) as Hsc. unfold Rsqr in Hsc.
  repeat case_decide;
    rewrite ?cos_neg, ?sin_neg, ?cos_pi_sub, ?sin_PI_x;
    (split_and!; [ring | ring | nra | done]).
Qed.

Lemma move_disc_inside (b : Ball) :
  0 <= v b -> disc_inside b -> disc_inside (move b).
Proof.
  intros Hv [Hx Hy].
  rewrite move_refines.
  unfold disc_inside, move_spec, hits_side, hits_floor, candidate.
  cbn [x y radius fst snd].
  split.
  - case_decide as Hs; [done|].
    destruct (Rlt_le_dec (cos (angle b)) 0) as [Hc|Hc].
    + assert (~ x b + v b * cos (angle b) - IZR (radius b) < 0) by tauto. nra.
    + destruct (Rle_lt_dec (cos (angle b)) 0) as [Hc'|Hc'].
      * replace (cos (angle b)) with 0 by lra. lra.
      * assert (~ x b + v b * cos (angle b) + IZR (radius b) > IZR WIDTH)
          by tauto. nra.
  - case_decide as Hs; [done|].
    destruct (Rlt_le_dec (sin (angle b)) 0) as [Hc|Hc].
    + assert (~ y b + v b * sin (angle b) - IZR (radius b) < 0) by tauto. nra.
    + destruct (Rle_lt_dec (sin (angle b)) 0) as [Hc'|Hc'].
      * replace (sin (angle b)) with 0 by lra. lra.
      * assert (~ y b + v b * sin (angle b) + IZR (radius b) > IZR HEIGHT)
          by tauto. nra.
Qed.

(** X9: a ball with non-negative speed whose whole disc lies on the
    screen keeps its whole disc on the screen under any number of calls of
    move(), with its speed unchanged. *)
Theorem moving_disc_stays_within_walls (b : Ball) (n : nat) :
  0 <= v b -> disc_inside b ->
  disc_inside (Nat.iter n move b)
  /\ v (Nat.iter n move b) = v b
  /\ shape (Nat.iter n move b) = shape b.
Proof.
  intros Hv Hd. induction n as [|n (IHd & IHv & IHs)]; [done|].
  change (Nat.iter (S n) move b) with (move (Nat.iter n move b)).
  destruct (move_keeps_shape (Nat.iter n move b)) as [Hr Hv'].
  split_and!.
  - apply move_disc_inside; [by rewrite IHv | done].
  - by rewrite Hv'.
  - rewrite <- IHs. by rewrite move_refines.
Qed.

Lemma moving_disc_stays_within_walls_witness :
  disc_inside (Nat.iter 5 move corner_ball)
  /\ v (Nat.iter 5 move corner_ball) = v corner_ball
  /\ shape (Nat.iter 5 move corner_ball) = shape corner_ball.
Proof.
  apply (moving_disc_stays_within_walls corner_ball 5).
  - cbn. lra.
  - unfold disc_inside, WIDTH, HEIGHT. cbn. lra.
Defined.

(** * Further properties of the main loop *)

Lemma total_fmap_same (f : Ball -> R) (g : Ball -> Ball) (balls : list Ball) :
  (forall b, f (g b) = f b) -> total f (g <$> balls) = total f balls.
Proof.
  intros H. induction balls as [|b balls IH]; [done|].
  rewrite fmap_cons, !total_cons, H, IH. done.
Qed.

Lemma total_filter_le (f : Ball -> R) (P : Ball -> Prop)
    `{!forall b, Decision (P b)} (balls : list Ball) :
  Forall (fun b => 0 <= f b) balls ->
  total f (filter P balls) <= total f balls.
Proof.
  induction 1 as [|b balls Hb _ IH]; [cbn; lra|].
  rewrite filter_cons. case_decide; rewrite !total_cons; lra.
Qed.

Lemma is_outside_false_inside (b : Ball) : is_outside b = false -> inside b.
Proof.
  unfold is_outside, inside. intros H.
  apply orb_false_elim in H as [H Hy2]. apply orb_false_elim in H as [H Hy1].
  apply orb_false_elim in H as [Hx1 Hx2].
  apply bool_decide_eq_false in Hx1, Hx2, Hy1, Hy2. lra.
Qed.

Lemma energy_nonneg (b : Ball) : (0 <= radius b)%Z -> 0 <= energy b.
Proof.
  intros Hr. unfold energy, m.
  assert (0 <= IZR (radius b ^ 3)).
  { apply IZR_le. by apply Z.pow_nonneg. }
  assert (0 <= v b ^ 2) by nra. nra.
Qed.

Lemma tick_run (balls : list Ball) :
  exists mid,
    collisions (map move balls) = Ok mid
    /\ tick balls = Ok (filter (fun ball => negb (is_outside ball) = true) mid)
    /\ shape <$> mid = shape <$> balls
    /\ total energy mid = total energy balls.
Proof.
  destruct (collisions_keeps
              (fun bs => shape <$> bs = shape <$> map move balls
                         /\ total energy bs = total energy (map move balls))
              (map move balls))
    as (mid & Hrun & [Hs He] & _); [|done|].
  - intros bs i j b1 b2 [Hs He] _ Hij H1 H2.
    destruct (resolved_shape b1 b2) as [Hs1 Hs2].
    pose proof (resolved_kinetic b1 b2) as Hk. unfold kinetic in Hk.
    rewrite <- Hs, <- He. split.
    + by apply (fmap_insert_pair shape _ i j b1 b2).
    + apply (total_insert_pair _ _ i j b1 b2); try done. lia.
  - exists mid. split; [done|]. split; [unfold tick; by rewrite Hrun|].
    split.
    + rewrite Hs. change (map move balls) with (move <$> balls).
      rewrite <- list_fmap_compose. apply list_fmap_ext.
      intros _ b _. cbn. by rewrite move_refines.
    + rewrite He. apply total_fmap_same.
      intros b. unfold energy, m.
      by destruct (move_keeps_shape b) as [-> ->].
Qed.

(** X11: for balls of non-negative radius one tick never increases the
    total kinetic energy, and keeps it when no ball is dropped. *)
Theorem tick_never_adds_energy (balls : list Ball) :
  Forall (fun b => (0 <= radius b)%Z) balls ->
  exists balls',
    tick balls = Ok balls'
    /\ total energy balls' <= total energy balls
    /\ (length balls' = length balls ->
        total energy balls' = total energy balls).
Proof.
  intros Hr. destruct (tick_run balls) as (mid & _ & Ht & Hs & He).
  eexists. split; [exact Ht|].
  assert (Hmid : Forall (fun b => 0 <= energy b) mid).
  { apply Forall_forall. intros b Hb. apply energy_nonneg.
    assert (Hin : shape b ∈ shape <$> balls).
    { rewrite <- Hs. by apply list_elem_of_fmap_2. }
    apply list_elem_of_fmap in Hin as (b' & Heq & Hb').
    injection Heq as _ -> _.
    revert b' Hb'. by apply Forall_forall. }
  split.
  - rewrite <- He. by apply total_filter_le.
  - intros Hlen. rewrite <- He. f_equal.
    assert (Hl : length mid = length balls).
    { by rewrite <- (length_fmap shape mid), Hs, length_fmap. }
    destruct (decide (Forall (fun ball => negb (is_outside ball) = true) mid))
      as [Hall|Hnot].
    + clear -Hall. induction Hall as [|b l Hb _ IH]; [done|].
      rewrite filter_cons, decide_True by done. by rewrite IH.
    + apply not_Forall_Exists in Hnot; [|apply _].
      apply Exists_exists in Hnot as (b & Hb & Hout).
      pose proof (length_filter_lt _ mid b Hb Hout). lia.
Qed.

(** * Further properties of construction and placement *)

Lemma angle_stage_run (angle_arg : PyVal) (w : World) :
  let stage := match as_number angle_arg with
               | Some a => _ ← assert (0 <= a <= 2 * PI); mret a
               | None => u ← random; mret (u * 2 * PI)
               end in
  (exists w', stage w = (Raise AssertionError, w') /\ Ball_ID w' = Ball_ID w)
  \/ (exists a w', stage w = (Ok a, w') /\ 0 <= a <= 2 * PI
                   /\ Ball_ID w' = Ball_ID w).
Proof.
  cbn zeta. destruct (as_number angle_arg) as [a|].
  - rewrite bind_run, assert_run. case_decide; [right | left]; eauto.
  - right. rewrite bind_run, random_run. do 2 eexists. split; [done|].
    pose proof (unit_draw_range (draw_at w 0)). pose proof PI_RGT_0.
    split; [nra | done].
Qed.

Lemma radius_stage_id (radius_arg : PyVal) (w w' : World) (r : res Z) :
  radius_stage radius_arg w = (r, w') -> Ball_ID w' = Ball_ID w.
Proof.
  unfold radius_stage. destruct (as_int radius_arg) as [n|].
  - rewrite bind_run, assert_run. case_decide; by intros [= <- <-].
  - rewrite randint_run by (by vm_compute). by intros [= <- <-].
Qed.

Lemma Ball_init_fresh (radius_arg angle_arg : PyVal) (w w' : World) (b : Ball) :
  Ball_init radius_arg angle_arg w = (Ok b, w') ->
  fresh_ball b /\ ball_id b = Ball_ID w.
Proof.
  assert (HR : (R_MAX = 250 /\ R_MIN = 2 /\ WIDTH = 1000 /\ HEIGHT = 1000)%Z)
    by (by vm_compute).
  unfold Ball_init. fold (radius_stage radius_arg).
  rewrite bind_run. unfold fresh_id at 1. rewrite bind_run.
  destruct (radius_stage_run radius_arg
              (mkWorld (Ball_ID w + 1) (rng w) (drawn w)))
    as [[w1 ->] | (r & w1 & -> & Hr)]; [done|].
  do 4 (rewrite bind_run, randint_run by lia).
  rewrite bind_run, random_run, bind_run.
  set (w2 := after_draws 1 _).
  destruct (angle_stage_run angle_arg w2)
    as [(w3 & -> & _) | (a & w3 & -> & Ha & _)]; [done|].
  rewrite bind_run, randint_run by lia.
  rewrite bind_run, randint_run by lia.
  unfold mret, M_ret. intros [= <- _].
  unfold fresh_ball, disc_inside. cbn [radius x y v angle ball_id].
  assert (Hw : (0 < WIDTH - r - r + 1)%Z) by lia.
  assert (Hh : (0 < HEIGHT - r - r + 1)%Z) by lia.
  split; [|done]. split; [done|]. split.
  { match goal with |- context [unit_draw ?k] =>
      pose proof (unit_draw_range k) as [Hu1 Hu2] end.
    assert (0 < IZR V_MAX) by (apply IZR_lt; by vm_compute). nra. }
  split; [done|].
  split_and!; rewrite <- ?minus_IZR; apply IZR_le.
  all: match goal with
       | |- context [(?k mod ?n)%Z] =>
           pose proof (Z.mod_pos_bound k n ltac:(lia))
       end; lia.
Qed.

Lemma Ball_init_counts (radius_arg angle_arg : PyVal) (w : World) :
  Ball_ID (Ball_init radius_arg angle_arg w).2 = (Ball_ID w + 1)%Z.
Proof.
  unfold Ball_init. fold (radius_stage radius_arg).
  rewrite bind_run. unfold fresh_id at 1. rewrite bind_run.
  set (w0 := mkWorld (Ball_ID w + 1) (rng w) (drawn w)).
  destruct (radius_stage radius_arg w0) as [[r|e] w1] eqn:Hst;
    apply radius_stage_id in Hst; [|done].
  assert (HR : (0 <= 255)%Z) by lia.
  do 4 (rewrite bind_run, randint_run by lia).
  rewrite bind_run, random_run, bind_run.
  set (w2 := after_draws 1 _).
  destruct (angle_stage_run angle_arg w2)
    as [(w3 & -> & Hid) | (a & w3 & -> & _ & Hid)].
  { cbn. rewrite Hid. unfold w2. cbn. by rewrite Hst. }
  unfold randint, mraise.
  repeat (case_decide; rewrite ?bind_run; cbn -[Z.modulo Z.add Z.sub]);
    rewrite Hid; unfold w2; cbn; by rewrite Hst.
Qed.

(** X12: whatever the arguments, a ball the constructor returns has its
    radius in [R_MIN, R_MAX], its speed in [0, V_MAX), its heading in
    [0, 2*pi] and its whole disc on the screen, so is_outside is false. *)
Theorem constructed_ball_is_fresh
    (radius_arg angle_arg : PyVal) (w w' : World) (b : Ball) :
  Ball_init radius_arg angle_arg w = (Ok b, w') ->
  (R_MIN <= radius b <= R_MAX)%Z
  /\ 0 <= v b < IZR V_MAX
  /\ 0 <= angle b <= 2 * PI
  /\ IZR (radius b) <= x b <= IZR WIDTH - IZR (radius b)
  /\ IZR (radius b) <= y b <= IZR HEIGHT - IZR (radius b)
  /\ is_outside b = false.
Proof.
  intros H. apply Ball_init_fresh in H as [(Hr & Hv & Ha & Hx & Hy) _].
  split_and!; try tauto.
  apply inside_not_outside. unfold inside.
  assert (0 <= IZR (radius b)).
  { apply IZR_le. unfold R_MIN in Hr. lia. }
  lra.
Qed.

Lemma constructed_ball_is_fresh_witness :
  (R_MIN <= radius (default_ball still_world) <= R_MAX)%Z
  /\ 0 <= v (default_ball still_world) < IZR V_MAX
  /\ 0 <= angle (default_ball still_world) <= 2 * PI
  /\ IZR (radius (default_ball still_world)) <= x (default_ball still_world)
     <= IZR WIDTH - IZR (radius (default_ball still_world))
  /\ IZR (radius (default_ball still_world)) <= y (default_ball still_world)
     <= IZR HEIGHT - IZR (radius (default_ball still_world))
  /\ is_outside (default_ball still_world) = false.
Proof.
  apply (constructed_ball_is_fresh PyNone PyNone still_world
           (after_default still_world) (default_ball still_world)).
  apply Ball_init_default.
Defined.

(** X13: every call of the constructor advances Ball.ID by one, also when
    an assertion fails; a returned ball carries the value Ball.ID had before
    the call; a call rejected for its radius makes no draw. *)
Theorem constructor_always_takes_an_id :
  (forall (radius_arg angle_arg : PyVal) (w : World),
     Ball_ID (Ball_init radius_arg angle_arg w).2 = (Ball_ID w + 1)%Z)
  /\ (forall (radius_arg angle_arg : PyVal) (w w' : World) (b : Ball),
        Ball_init radius_arg angle_arg w = (Ok b, w') ->
        ball_id b = Ball_ID w)
  /\ (forall (w : World),
        Ball_init (PyInt 0) PyNone w
        = (Raise AssertionError,
           mkWorld (Ball_ID w + 1) (rng w) (drawn w))).
Proof.
  split_and!.
  - apply Ball_init_counts.
  - intros radius_arg angle_arg w w' b H. by apply Ball_init_fresh in H as [_ H].
  - intros w. unfold Ball_init. cbn [as_int].
    rewrite bind_run. unfold fresh_id at 1.
    rewrite !bind_run, assert_run. by rewrite decide_False by (unfold R_MIN; lia).
Qed.

(** X14: an int radius within [R_MIN, R_MAX] and a numeric heading within
    [0, 2*pi] are stored as given, and the call makes seven draws instead of
    nine. *)
Theorem valid_arguments_are_kept
    (radius_arg angle_arg : PyVal) (n : Z) (a : R) (w : World) :
  as_int radius_arg = Some n -> (R_MIN <= n <= R_MAX)%Z ->
  as_number angle_arg = Some a -> 0 <= a <= 2 * PI ->
  exists b w',
    Ball_init radius_arg angle_arg w = (Ok b, w')
    /\ radius b = n /\ angle b = a
    /\ drawn w' = (drawn w + 7)%nat.
Proof.
  intros Hn Hrange Ha Harange.
  assert (HR : (R_MAX = 250 /\ R_MIN = 2 /\ WIDTH = 1000 /\ HEIGHT = 1000)%Z)
    by (by vm_compute).
  unfold Ball_init. rewrite Hn, Ha.
  rewrite bind_run. unfold fresh_id at 1.
  rewrite !bind_run, assert_run, decide_True by done.
  unfold mret at 1, M_ret at 1.
  do 4 (rewrite bind_run, randint_run by lia).
  rewrite bind_run, random_run.
  rewrite !bind_run, assert_run, decide_True by done.
  unfold mret at 1, M_ret at 1.
  rewrite bind_run, randint_run by lia.
  rewrite bind_run, randint_run by lia.
  do 2 eexists. split; [done|]. split_and!; try done. cbn. lia.
Qed.

Lemma valid_arguments_are_kept_witness :
  exists b w',
    Ball_init (PyInt 10) (PyFloat 1) still_world = (Ok b, w')
    /\ radius b = 10%Z /\ angle b = 1
    /\ drawn w' = (drawn still_world + 7)%nat.
Proof.
  apply (valid_arguments_are_kept (PyInt 10) (PyFloat 1) 10 1 still_world).
  - done.
  - by vm_compute.
  - done.
  - pose proof PI2_3_2. pose proof PI_RGT_0. lra.
Defined.

Lemma default_ball_fresh (w : World) :
  fresh_ball (default_ball w) /\ ball_id (default_ball w) = Ball_ID w.
Proof. apply (Ball_init_fresh PyNone PyNone w (after_default w)), Ball_init_default. Qed.

Lemma place_one_inv (fuel : nat) (balls balls' : list Ball) (w w' : World) :
  place_one fuel balls w = (Ok balls', w') ->
  exists new_ball,
    balls' = balls ++ [new_ball]
    /\ fresh_ball new_ball
    /\ (Ball_ID w <= ball_id new_ball < Ball_ID w')%Z.
Proof.
  revert w. induction fuel as [|fuel IH]; intros w; [done|].
  destruct (existsb (is_collide (default_ball w)) balls) eqn:He.
  - rewrite place_one_reject by done. intros H.
    apply IH in H as (nb & -> & Hf & Hid). exists nb.
    split_and!; [done | done | cbn in Hid; lia | lia].
  - rewrite place_one_accept by done. intros [= <- <-].
    exists (default_ball w). destruct (default_ball_fresh w) as [Hf ->].
    split_and!; [done | done | lia | cbn; lia].
Qed.

Lemma place_one_error (fuel : nat) (balls : list Ball) (w w' : World)
    (e : PyErr) :
  place_one fuel balls w = (Raise e, w') -> e = OutOfFuel.
Proof.
  revert w. induction fuel as [|fuel IH]; intros w.
  - by intros [= <- _].
  - destruct (existsb (is_collide (default_ball w)) balls) eqn:He.
    + rewrite place_one_reject by done. apply IH.
    + by rewrite place_one_accept by done.
Qed.

Lemma ids_increasing_snoc (balls : list Ball) (nb : Ball) :
  ids_increasing balls ->
  Forall (fun b => (ball_id b < ball_id nb)%Z) balls ->
  ids_increasing (balls ++ [nb]).
Proof.
  intros Hinc Hlt i j a b Hij Ha Hb.
  apply lookup_app_Some in Ha as [Ha | [Hi Ha]];
    apply lookup_app_Some in Hb as [Hb | [Hj Hb]].
  - by eapply Hinc.
  - apply list_lookup_singleton_Some in Hb as [_ <-].
    by eapply Forall_lookup_1 in Hlt.
  - apply lookup_lt_Some in Hb. lia.
  - apply list_lookup_singleton_Some in Ha as [Ha _].
    apply list_lookup_singleton_Some in Hb as [Hb _]. lia.
Qed.

Lemma place_all_inv (lo : Z) (fuel entrophy : nat) (balls balls' : list Ball)
    (w w' : World) :
  ids_increasing balls -> (lo <= Ball_ID w)%Z ->
  Forall (fun b => fresh_ball b /\ (lo <= ball_id b < Ball_ID w)%Z) balls ->
  place_all fuel entrophy balls w = (Ok balls', w') ->
  ids_increasing balls'
  /\ Forall (fun b => fresh_ball b /\ (lo <= ball_id b < Ball_ID w')%Z) balls'.
Proof.
  revert balls w. induction entrophy as [|n IH]; intros balls w Hinc Hlo Hall.
  - by intros [= <- <-].
  - cbn [place_all]. rewrite bind_run.
    destruct (place_one fuel balls w) as [[balls1|e] w1] eqn:H1; [|done].
    apply place_one_inv in H1 as (nb & -> & Hf & Hid).
    intros H2. apply IH in H2; [done | | lia |].
    + apply ids_increasing_snoc; [done|].
      eapply Forall_impl; [exact Hall|]. intros b [_ Hb]. cbn. lia.
    + apply Forall_app. split.
      * eapply Forall_impl; [exact Hall|]. intros b [Hfb Hb]. split; [done|lia].
      * apply Forall_singleton. split; [done | lia].
Qed.

Lemma place_all_error (fuel entrophy : nat) (balls : list Ball) (w w' : World)
    (e : PyErr) :
  place_all fuel entrophy balls w = (Raise e, w') -> e = OutOfFuel.
Proof.
  revert balls w. induction entrophy as [|n IH]; intros balls w; [done|].
  cbn [place_all]. rewrite bind_run.
  destruct (place_one fuel balls w) as [[balls1|e1] w1] eqn:H1.
  - apply IH.
  - intros [= <- _]. by apply place_one_error in H1.
Qed.

(** X15: the balls the placement loop returns are as the constructor
    leaves them, their identifiers lie between the values of Ball.ID before
    and after, grow along the list and are pairwise different. *)
Theorem placed_balls_are_fresh_and_numbered (fuel entrophy : nat)
    (w w' : World) (balls : list Ball) :
  main_placement fuel entrophy w = (Ok balls, w') ->
  Forall fresh_ball balls
  /\ Forall (fun b => (Ball_ID w <= ball_id b < Ball_ID w')%Z) balls
  /\ ids_increasing balls
  /\ NoDup (ball_id <$> balls).
Proof.
  intros H.
  apply (place_all_inv (Ball_ID w)) in H as (Hinc & Hall);
    [| by intros i j a b _ Ha; rewrite lookup_nil in Ha | lia | constructor].
  split_and!.
  - eapply Forall_impl; [exact Hall|]. by intros b [Hb _].
  - eapply Forall_impl; [exact Hall|]. by intros b [_ Hb].
  - done.
  - apply NoDup_alt. intros i j k Hi Hj.
    apply list_lookup_fmap_Some in Hi as (a & -> & Ha).
    apply list_lookup_fmap_Some in Hj as (b & Heq & Hb).
    destruct (Nat.lt_trichotomy i j) as [Hlt | [-> | Hlt]]; [|done|].
    + pose proof (Hinc i j a b Hlt Ha Hb). lia.
    + pose proof (Hinc j i b a Hlt Hb Ha). lia.
Qed.

Lemma placed_balls_are_fresh_and_numbered_witness :
  Forall fresh_ball demo_balls
  /\ Forall (fun b =>
       (Ball_ID demo_world <= ball_id b
        < Ball_ID (after_default (after_default (after_default demo_world))))%Z)
       demo_balls
  /\ ids_increasing demo_balls
  /\ NoDup (ball_id <$> demo_balls).
Proof.
  apply (placed_balls_are_fresh_and_numbered 2 2 demo_world
           (after_default (after_default (after_default demo_world)))
           demo_balls).
  exact demo_placement.
Defined.

(** X16: the placement loop raises no exception: the only way it does not
    return a list is that a while loop never finds a free place. *)
Theorem placement_fails_only_by_running_out (fuel entrophy : nat)
    (w w' : World) (e : PyErr) :
  main_placement fuel entrophy w = (Raise e, w') -> e = OutOfFuel.
Proof. apply place_all_error. Qed.

(** X17: on a list in which no two balls overlap strictly (tangent pairs
    included) a pass of the engine returns the list unchanged, and so does
    any number of passes. *)
Theorem engine_idle_without_overlap (balls : list Ball) :
  no_overlap balls ->
  collisions balls = Ok balls
  /\ forall n : nat, Nat.iter n (fun r => r ≫= collisions) (Ok balls) = Ok balls.
Proof.
  intros Hno. pose proof (collisions_idle balls Hno) as H.
  split; [done|]. induction n as [|n IH]; [done|].
  rewrite Nat.iter_succ, IH. exact H.
Qed.

Lemma engine_idle_without_overlap_witness :
  collisions [ballA'; ballB'] = Ok [ballA'; ballB']
  /\ forall n : nat,
       Nat.iter n (fun r => r ≫= collisions) (Ok [ballA'; ballB'])
       = Ok [ballA'; ballB'].
Proof.
  apply (engine_idle_without_overlap [ballA'; ballB']).
  exact tangent_no_overlap.
Defined.

(** X18: on the list the placement loop returns no two balls overlap, all
    centres are on the screen, and a pass of the engine changes nothing. *)
Theorem engine_idle_after_placement (fuel entrophy : nat) (w w' : World)
    (balls : list Ball) :
  main_placement fuel entrophy w = (Ok balls, w') ->
  no_overlap balls
  /\ collisions balls = Ok balls
  /\ Forall inside balls.
Proof.
  intros H. pose proof H as H'.
  apply place_all_spec in H as [Hp _];
    [| by intros i j a b _ Ha; rewrite lookup_nil in Ha].
  apply (place_all_inv (Ball_ID w)) in H' as (_ & Hall);
    [| by intros i j a b _ Ha; rewrite lookup_nil in Ha | lia | constructor].
  pose proof (apart_no_overlap balls Hp) as Hno.
  split_and!; [done | by apply collisions_idle |].
  eapply Forall_impl; [exact Hall|].
  intros b [(Hr & _ & _ & Hx & Hy) _]. unfold inside.
  assert (0 <= IZR (radius b)). { apply IZR_le. unfold R_MIN in Hr. lia. }
  lra.
Qed.

Lemma engine_idle_after_placement_witness :
  no_overlap demo_balls
  /\ collisions demo_balls = Ok demo_balls
  /\ Forall inside demo_balls.
Proof.
  apply (engine_idle_after_placement 2 2 demo_world
           (after_default (after_default (after_default demo_world)))
           demo_balls).
  exact demo_placement.
Defined.

Lemma demo_out_of_fuel :
  main_placement 1 2 demo_world
  = (Raise OutOfFuel, after_default (after_default demo_world)).
Proof.
  unfold main_placement. cbn [place_all].
  rewrite bind_run, place_one_accept by done. cbn [app].
  rewrite bind_run, place_one_reject
    by (cbn [existsb]; by rewrite demo_second_rejected).
  done.
Qed.

Lemma placement_fails_only_by_running_out_witness : OutOfFuel = OutOfFuel.
Proof.
  apply (placement_fails_only_by_running_out 1 2 demo_world
           (after_default (after_default demo_world)) OutOfFuel).
  exact demo_out_of_fuel.
Defined.

(** * Further properties of the geometry *)

Lemma norm_triangle (a b c d : R) :
  sqrt ((a + c) ^ 2 + (b + d) ^ 2)
  <= sqrt (a ^ 2 + b ^ 2) + sqrt (c ^ 2 + d ^ 2).
Proof.
  pose proof (sqrt_pos (a ^ 2 + b ^ 2)) as H1.
  pose proof (sqrt_pos (c ^ 2 + d ^ 2)) as H2.
  pose proof (sqrt_cauchy a b c d) as Hc. unfold Rsqr in Hc.
  replace (a * a + b * b) with (a ^ 2 + b ^ 2) in Hc by ring.
  replace (c * c + d * d) with (c ^ 2 + d ^ 2) in Hc by ring.
  pose proof (sqrt_sqrt (a ^ 2 + b ^ 2)
                ltac:(apply Rplus_le_le_0_compat; apply pow2_ge_0)) as Hs1.
  pose proof (sqrt_sqrt (c ^ 2 + d ^ 2)
                ltac:(apply Rplus_le_le_0_compat; apply pow2_ge_0)) as Hs2.
  apply Rsqr_incr_0_var; [|lra]. unfold Rsqr.
  rewrite sqrt_sqrt by (apply Rplus_le_le_0_compat; apply pow2_ge_0). nra.
Qed.

(** X19: distance is non-negative, symmetric, zero exactly on equal
    points, and satisfies the triangle inequality. *)
Theorem distance_is_a_metric (p q r : R * R) :
  0 <= distance p q
  /\ distance p q = distance q p
  /\ (distance p q = 0 <-> p = q)
  /\ distance p r <= distance p q + distance q r.
Proof.
  split_and!.
  - apply sqrt_pos.
  - apply distance_sym.
  - unfold distance. split.
    + destruct p as [p1 p2], q as [q1 q2]. cbn [fst snd]. intros H.
      apply sqrt_eq_0 in H;
        [|apply Rplus_le_le_0_compat; apply pow2_ge_0].
      replace ((p1 - q1) ^ 2 + (p2 - q2) ^ 2)
        with ((p1 - q1)² + (p2 - q2)²) in H by (unfold Rsqr; ring).
      apply Rplus_sqr_eq_0 in H. f_equal; lra.
    + intros ->. replace ((q.1 - q.1) ^ 2 + (q.2 - q.2) ^ 2) with 0 by ring.
      apply sqrt_0.
  - unfold distance.
    replace (p.1 - r.1) with ((p.1 - q.1) + (q.1 - r.1)) by ring.
    replace (p.2 - r.2) with ((p.2 - q.2) + (q.2 - r.2)) by ring.
    apply norm_triangle.
Qed.

(** X20: is_collide does not depend on the order of the two balls; a ball
    collides with itself exactly when its radius is not negative; and two
    balls on which is_collide fails are left alone by the engine in either
    order. *)
Theorem is_collide_is_symmetric :
  (forall a b : Ball, is_collide a b = is_collide b a)
  /\ (forall b : Ball, is_collide b b = bool_decide (0 <= radius b)%Z)
  /\ (forall a b : Ball,
        is_collide a b = false ->
        collide_pair a b = Ok (a, b) /\ collide_pair b a = Ok (b, a)).
Proof.
  split_and!.
  - intros a b. unfold is_collide.
    by rewrite (distance_sym (x a, y a)), (Z.add_comm (radius a)).
  - intros b. unfold is_collide.
    replace (distance (x b, y b) (x b, y b)) with 0.
    + apply bool_decide_ext. split.
      * intros H. apply le_IZR in H. lia.
      * intros H. apply IZR_le. lia.
    + unfold distance. cbn [fst snd].
      replace ((x b - x b) ^ 2 + (y b - y b) ^ 2) with 0 by ring.
      by rewrite sqrt_0.
  - intros a b H. apply not_collide_apart in H as [H1 H2].
    unfold apart in *. rewrite distance_centres in *.
    split; apply collide_pair_miss; unfold min_dist; lra.
Qed.

(** X21: for an overlapping, approaching pair the velocity components of
    the balls after the pass are v1 + impulse*m2*n and v2 - impulse*m1*n,
    and the stored speed is the norm of the stored velocity. *)
Theorem impulse_formula (b1 b2 : Ball) :
  centre_dist b1 b2 < min_dist b1 b2 -> approach b1 b2 <= 0 ->
  exists c1 c2,
    collisions [b1; b2] = Ok [c1; c2]
    /\ vx c1 = vx b1 + impulse_of b1 b2 * m b2 * (normal b1 b2).1
    /\ vy c1 = vy b1 + impulse_of b1 b2 * m b2 * (normal b1 b2).2
    /\ vx c2 = vx b2 - impulse_of b1 b2 * m b1 * (normal b1 b2).1
    /\ vy c2 = vy b2 - impulse_of b1 b2 * m b1 * (normal b1 b2).2
    /\ v c1 ^ 2 = vx c1 ^ 2 + vy c1 ^ 2
    /\ v c2 ^ 2 = vx c2 ^ 2 + vy c2 ^ 2.
Proof.
  intros Hd Ha. exists (bounced b1 b2).1, (bounced b1 b2).2.
  split.
  { rewrite collisions_pair, collide_pair_resolved, resolved_bounce by done.
    cbn. by destruct (bounced b1 b2). }
  rewrite <- !speed_sq.
  rewrite bounced_fst, bounced_snd, !redirect_vx, !redirect_vy.
  unfold velocity1, velocity2. destruct (normal b1 b2) as [nx ny].
  cbn [fst snd]. split_and!; ring.
Qed.

Lemma impulse_formula_witness :
  exists c1 c2,
    collisions [ballA; ballB] = Ok [c1; c2]
    /\ vx c1 = vx ballA + impulse_of ballA ballB * m ballB * (normal ballA ballB).1
    /\ vy c1 = vy ballA + impulse_of ballA ballB * m ballB * (normal ballA ballB).2
    /\ vx c2 = vx ballB - impulse_of ballA ballB * m ballA * (normal ballA ballB).1
    /\ vy c2 = vy ballB - impulse_of ballA ballB * m ballA * (normal ballA ballB).2
    /\ v c1 ^ 2 = vx c1 ^ 2 + vy c1 ^ 2
    /\ v c2 ^ 2 = vx c2 ^ 2 + vy c2 ^ 2.
Proof.
  apply (impulse_formula ballA ballB).
  - rewrite example_dist, example_min_dist. lra.
  - rewrite example_approach. lra.
Defined.

Lemma tick_never_adds_energy_witness :
  exists balls',
    tick [ballA; ballB] = Ok balls'
    /\ total energy balls' <= total energy [ballA; ballB]
    /\ (length balls' = length [ballA; ballB] ->
        total energy balls' = total energy [ballA; ballB]).
Proof.
  apply (tick_never_adds_energy [ballA; ballB]).
  repeat constructor; by vm_compute.
Defined.

(** * The engine with the float power *)

Lemma pynorm_run (a b : R) :
  pynorm a b = if decide (overflowing (a, b)) then Raise OverflowError
               else Ok (sqrt (a ^ 2 + b ^ 2)).
Proof.
  unfold pynorm, pysq, overflowing. cbn [fst snd].
  repeat case_decide; try done; tauto.
Qed.

Lemma collide_pair_checked_miss (b1 b2 : Ball) :
  ~ centre_dist b1 b2 < min_dist b1 b2 ->
  collide_pair_checked b1 b2 = Ok (b1, b2).
Proof.
  intros H. unfold collide_pair_checked.
  fold (centre_dist b1 b2). fold (min_dist b1 b2).
  by rewrite decide_False.
Qed.

Lemma collide_pair_checked_hit (b1 b2 : Ball) :
  centre_dist b1 b2 < min_dist b1 b2 ->
  collide_pair_checked b1 b2 =
    if decide (approach b1 b2 > 0) then Ok (corrected b1 b2)
    else if decide (m b1 + m b2 = 0) then Raise ZeroDivisionError
    else if decide (overflowing (velocity1 b1 b2)) then Raise OverflowError
    else if decide (overflowing (velocity2 b1 b2)) then Raise OverflowError
    else Ok (bounced b1 b2).
Proof.
  intros H. unfold collide_pair_checked.
  fold (centre_dist b1 b2). fold (min_dist b1 b2).
  rewrite decide_True by done.
  unfold bounced, redirect, velocity1, velocity2, impulse_of, approach,
    corrected, overlap_of, normal, contact.
  destruct (decide (centre_dist b1 b2 = 0)) as [Hz|Hz]; unfold pydiv.
  - rewrite !(decide_False (P := (1 = 0))) by lra. cbn -[pynorm pow].
    repeat (first [rewrite pynorm_run | case_decide]; cbn -[pynorm pow]);
      try done.
  - rewrite !(decide_False (P := (centre_dist b1 b2 = 0))) by done.
    cbn -[pynorm pow].
    repeat (first [rewrite pynorm_run | case_decide]; cbn -[pynorm pow]);
      try done.
Qed.

Lemma collide_pair_checked_run (b1 b2 : Ball) :
  collide_pair_checked b1 b2 =
    if decide (bounce_overflows b1 b2) then Raise OverflowError
    else Ok (resolved b1 b2).
Proof.
  unfold bounce_overflows, resolved.
  destruct (decide (centre_dist b1 b2 < min_dist b1 b2)) as [Hd|Hd].
  - pose proof (overlap_mass_pos b1 b2 Hd).
    rewrite collide_pair_checked_hit by done.
    destruct (decide (approach b1 b2 > 0)) as [Ha|Ha].
    + by rewrite decide_False by tauto.
    + rewrite (decide_False (P := (m b1 + m b2 = 0))) by lra.
      repeat case_decide; try done; tauto.
  - rewrite collide_pair_checked_miss by done.
    by rewrite decide_False by tauto.
Qed.


Lemma collide_pair_checked_agrees (b1 b2 : Ball) (r : Ball * Ball) :
  collide_pair_checked b1 b2 = Ok r -> collide_pair b1 b2 = Ok r.
Proof.
  rewrite collide_pair_checked_run, collide_pair_resolved.
  by case_decide.
Qed.

(** ** Speeds that cannot overflow *)

Lemma bounce_bound (a c a' c' nx ny m1 m2 B : R) :
  nx * nx + ny * ny = 1 -> 0 < m1 -> 0 < m2 -> 0 <= B ->
  a ^ 2 + c ^ 2 <= B ^ 2 -> a' ^ 2 + c' ^ 2 <= B ^ 2 ->
  let J := 2 * ((a' - a) * nx + (c' - c) * ny) / (m1 + m2) in
  (a + J * m2 * nx * 1) ^ 2 <= 34 * B ^ 2
  /\ (c + J * m2 * ny * 1) ^ 2 <= 34 * B ^ 2
  /\ (a' - J * m1 * nx * 1) ^ 2 <= 34 * B ^ 2
  /\ (c' - J * m1 * ny * 1) ^ 2 <= 34 * B ^ 2.
Proof.
  intros Hn Hm1 Hm2 HB H1 H2 J.
  set (p := (a' - a) * nx + (c' - c) * ny) in *.
  assert (Hp : p ^ 2 <= 4 * B ^ 2).
  { assert (p ^ 2 <= ((a' - a) ^ 2 + (c' - c) ^ 2) * (nx * nx + ny * ny)).
    { unfold p.
      pose proof (pow2_ge_0 ((a' - a) * ny - (c' - c) * nx)). nra. }
    pose proof (pow2_ge_0 (a' + a)). pose proof (pow2_ge_0 (c' + c)). nra. }
  set (l1 := m1 / (m1 + m2)). set (l2 := m2 / (m1 + m2)).
  assert (Hl1 : 0 <= l1 <= 1).
  { unfold l1. split.
    - apply Rmult_le_pos; [lra|]. left. apply Rinv_0_lt_compat. lra.
    - apply (Rmult_le_reg_r (m1 + m2)); [lra|]. unfold Rdiv.
      rewrite Rmult_assoc, Rinv_l by lra. lra. }
  assert (Hl2 : 0 <= l2 <= 1).
  { unfold l2. split.
    - apply Rmult_le_pos; [lra|]. left. apply Rinv_0_lt_compat. lra.
    - apply (Rmult_le_reg_r (m1 + m2)); [lra|]. unfold Rdiv.
      rewrite Rmult_assoc, Rinv_l by lra. lra. }
  assert (Ht1 : J * m1 = 2 * p * l1) by (unfold J, l1; field; lra).
  assert (Ht2 : J * m2 = 2 * p * l2) by (unfold J, l2; field; lra).
  assert (Hs1 : (J * m1) ^ 2 <= 16 * B ^ 2).
  { rewrite Ht1. assert (l1 ^ 2 <= 1) by nra.
    replace ((2 * p * l1) ^ 2) with (4 * (p ^ 2 * l1 ^ 2)) by ring.
    assert (0 <= p ^ 2) by apply pow2_ge_0. nra. }
  assert (Hs2 : (J * m2) ^ 2 <= 16 * B ^ 2).
  { rewrite Ht2. assert (l2 ^ 2 <= 1) by nra.
    replace ((2 * p * l2) ^ 2) with (4 * (p ^ 2 * l2 ^ 2)) by ring.
    assert (0 <= p ^ 2) by apply pow2_ge_0. nra. }
  assert (Hnx : nx ^ 2 <= 1) by nra. assert (Hny : ny ^ 2 <= 1) by nra.
  assert (Ha : a ^ 2 <= B ^ 2) by nra. assert (Hc : c ^ 2 <= B ^ 2) by nra.
  assert (Ha' : a' ^ 2 <= B ^ 2) by nra.
  assert (Hc' : c' ^ 2 <= B ^ 2) by nra.
  assert (Hcomb : forall u t n : R,
            u ^ 2 <= B ^ 2 -> t ^ 2 <= 16 * B ^ 2 -> n ^ 2 <= 1 ->
            (u + t * n) ^ 2 <= 34 * B ^ 2).
  { intros u t n Hu Ht Hn'.
    assert ((t * n) ^ 2 <= 16 * B ^ 2).
    { replace ((t * n) ^ 2) with (t ^ 2 * n ^ 2) by ring.
      assert (0 <= t ^ 2) by apply pow2_ge_0.
      assert (0 <= n ^ 2) by apply pow2_ge_0. nra. }
    pose proof (pow2_ge_0 (u - t * n)). nra. }
  split_and!.
  - replace (a + J * m2 * nx * 1) with (a + (J * m2) * nx) by ring.
    by apply Hcomb.
  - replace (c + J * m2 * ny * 1) with (c + (J * m2) * ny) by ring.
    by apply Hcomb.
  - replace (a' - J * m1 * nx * 1) with (a' + (J * m1) * (- nx)) by ring.
    apply Hcomb; [done | done |]. by replace ((- nx) ^ 2) with (nx ^ 2) by ring.
  - replace (c' - J * m1 * ny * 1) with (c' + (J * m1) * (- ny)) by ring.
    apply Hcomb; [done | done |]. by replace ((- ny) ^ 2) with (ny ^ 2) by ring.
Qed.

Lemma speed_bound_safe : 34 * SPEED_BOUND ^ 2 < FLOAT_OVERFLOW.
Proof.
  unfold SPEED_BOUND, FLOAT_OVERFLOW.
  rewrite pow_IZR, <- mult_IZR. apply IZR_lt. by vm_compute.
Qed.

Lemma calm_velocity (b : Ball) : calm b -> vx b ^ 2 + vy b ^ 2 <= SPEED_BOUND ^ 2.
Proof.
  intros [[_ Hv] Hb]. rewrite speed_sq. nra.
Qed.

Lemma calm_never_overflows (b1 b2 : Ball) :
  calm b1 -> calm b2 -> ~ bounce_overflows b1 b2.
Proof.
  intros H1 H2 (Hd & _ & Hov).
  pose proof (calm_velocity b1 H1) as Hv1.
  pose proof (calm_velocity b2 H2) as Hv2.
  destruct H1 as [Hw1 Hb1], H2 as [Hw2 Hb2].
  pose proof (mass_pos b1 Hw1). pose proof (mass_pos b2 Hw2).
  pose proof (normal_unit b1 b2) as Hn.
  pose proof speed_bound_safe as Hsafe.
  assert (HB : 0 <= SPEED_BOUND) by (destruct Hw1 as [_ ?]; lra).
  unfold overflowing, velocity1, velocity2, impulse_of, approach in Hov.
  destruct (normal b1 b2) as [nx ny]. cbn [fst snd] in *.
  destruct (bounce_bound (vx b1) (vy b1) (vx b2) (vy b2) nx ny
              (m b1) (m b2) SPEED_BOUND) as (B1 & B2 & B3 & B4);
    try done; lra.
Qed.

(** ** The loops around a pair body *)

Lemma for_each_outcome {S A : Type} (P : S -> Prop) (Q : A -> Prop)
    (E : PyErr -> Prop) (body : S -> A -> res S) (l : list A) (s : S) :
  (forall s a, P s -> Q a ->
     match body s a with Ok s' => P s' | Raise e => E e end) ->
  Forall Q l -> P s ->
  match for_each body l s with Ok s' => P s' | Raise e => E e end.
Proof.
  intros Hbody Hl. revert s. induction Hl as [|a l Ha _ IH]; intros s Hs.
  - done.
  - cbn [for_each]. specialize (Hbody s a Hs Ha).
    destruct (body s a) as [s'|e]; cbn; [by apply IH | done].
Qed.

Lemma for_each_agrees {S A : Type} (body1 body2 : S -> A -> res S)
    (l : list A) (s r : S) :
  (forall s a s', body1 s a = Ok s' -> body2 s a = Ok s') ->
  for_each body1 l s = Ok r -> for_each body2 l s = Ok r.
Proof.
  intros Hb. revert s. induction l as [|a l IH]; intros s; [done|].
  cbn [for_each]. destruct (body1 s a) as [s'|e] eqn:H1; [|done].
  rewrite (Hb s a s' H1). cbn. apply IH.
Qed.

Lemma collisions_with_plain (balls : list Ball) :
  collisions_with collide_pair balls = collisions balls.
Proof. done. Qed.

(** Whatever every pair step keeps, and whatever error a pair body may
    raise, is what the two loops keep and may raise. *)
Lemma collisions_with_outcome (body : Ball -> Ball -> res (Ball * Ball))
    (P : list Ball -> Prop) (E : PyErr -> Prop) (balls : list Ball) :
  (forall (bs : list Ball) (i j : nat) (b1 b2 : Ball),
     P bs -> length bs = length balls -> (i < j)%nat ->
     bs !! i = Some b1 -> bs !! j = Some b2 ->
     match body b1 b2 with
     | Ok (c1, c2) => P (<[j := c2]> (<[i := c1]> bs))
     | Raise e => E e
     end) ->
  P balls ->
  match collisions_with body balls with
  | Ok balls' => P balls' /\ length balls' = length balls
  | Raise e => E e
  end.
Proof.
  intros Hstep HP. unfold collisions_with. set (n := length balls).
  pose (Q := fun bs : list Ball => P bs /\ length bs = n).
  apply (for_each_outcome Q (fun i => (i < n)%nat) E); [| |done].
  - intros bs i HQ Hi.
    apply (for_each_outcome Q (fun j => (i < j < n)%nat) E); [| |done].
    + intros bs' j [HP' Hlen] [Hij Hj].
      destruct (lookup_lt_is_Some_2 bs' i) as [b1 Hb1]; [lia|].
      destruct (lookup_lt_is_Some_2 bs' j) as [b2 Hb2]; [lia|].
      unfold pair_step_with. rewrite Hb1, Hb2.
      specialize (Hstep bs' i j b1 b2 HP' Hlen Hij Hb1 Hb2).
      destruct (body b1 b2) as [[c1 c2]|e]; cbn; [|done].
      split; [done|]. by rewrite !length_insert.
    + apply Forall_forall. intros j Hj%elem_of_seq. lia.
  - apply Forall_forall. intros i Hi%elem_of_seq. lia.
Qed.

Lemma collisions_checked_agrees (balls balls' : list Ball) :
  collisions_checked balls = Ok balls' -> collisions balls = Ok balls'.
Proof.
  rewrite <- collisions_with_plain. unfold collisions_checked, collisions_with.
  apply for_each_agrees. intros bs i bs'. apply for_each_agrees.
  intros bs1 j bs2. unfold pair_step_with.
  destruct (bs1 !! i) as [b1|]; [|done]. destruct (bs1 !! j) as [b2|]; [|done].
  destruct (collide_pair_checked b1 b2) as [r|e] eqn:Hc; [|done].
  by rewrite (collide_pair_checked_agrees b1 b2 r Hc).
Qed.


(** ** Bounded energy keeps every ball slow *)

Lemma total_member_le (f : Ball -> R) (balls : list Ball) (i : nat) (b : Ball) :
  Forall (fun b => 0 <= f b) balls -> balls !! i = Some b ->
  f b <= total f balls.
Proof.
  intros Hall. revert i. induction Hall as [|a l Ha Hl IH]; intros [|i] H;
    try done.
  - injection H as ->. rewrite total_cons.
    assert (0 <= total f l).
    { clear -Hl. induction Hl as [|c l Hc _ IH]; [cbn; lra|].
      rewrite total_cons. lra. }
    lra.
  - rewrite total_cons. specialize (IH i H). lra.
Qed.

Lemma wf_energy_nonneg (balls : list Ball) :
  Forall wf_ball balls -> Forall (fun b => 0 <= energy b) balls.
Proof.
  intros H. eapply Forall_impl; [exact H|]. intros b [[Hr _] _].
  apply energy_nonneg. unfold R_MIN in Hr. lia.
Qed.

Lemma tame_member_calm (balls : list Ball) (i : nat) (b : Ball) :
  tame balls -> balls !! i = Some b -> calm b.
Proof.
  intros [Hwf He] Hb.
  assert (Hw : wf_ball b) by (by eapply Forall_lookup_1).
  split; [done|].
  pose proof (total_member_le energy balls i b (wf_energy_nonneg _ Hwf) Hb)
    as Hle.
  pose proof (mass_pos b Hw) as Hm. destruct Hw as [_ Hv].
  unfold energy, ENERGY_BOUND in *.
  assert (HB : 0 <= SPEED_BOUND).
  { unfold SPEED_BOUND. apply IZR_le. by vm_compute. }
  assert (Hsq : v b ^ 2 <= SPEED_BOUND ^ 2).
  { assert (0 <= v b ^ 2) by apply pow2_ge_0. nra. }
  nra.
Qed.

Lemma resolved_wf (b1 b2 : Ball) :
  wf_ball b1 -> wf_ball b2 ->
  wf_ball (resolved b1 b2).1 /\ wf_ball (resolved b1 b2).2.
Proof.
  intros H1 H2.
  destruct (collide_pair_ok b1 b2 H1 H2) as (c1 & c2 & Hc & Hw1 & Hw2).
  rewrite collide_pair_resolved in Hc. injection Hc as Hc. by rewrite Hc.
Qed.

Lemma tame_step (bs : list Ball) (i j : nat) (b1 b2 : Ball) :
  tame bs -> (i < j)%nat -> bs !! i = Some b1 -> bs !! j = Some b2 ->
  match collide_pair_checked b1 b2 with
  | Ok (c1, c2) => tame (<[j := c2]> (<[i := c1]> bs))
  | Raise e => False
  end.
Proof.
  intros Hbs Hij H1 H2. rewrite collide_pair_checked_run.
  rewrite decide_False
    by (apply calm_never_overflows; by eapply tame_member_calm).
  destruct (resolved b1 b2) as [c1 c2] eqn:Hres.
  destruct Hbs as [Hwf He].
  assert (Hw1 : wf_ball b1) by (by eapply Forall_lookup_1).
  assert (Hw2 : wf_ball b2) by (by eapply Forall_lookup_1).
  destruct (resolved_wf b1 b2 Hw1 Hw2) as [Hc1 Hc2].
  pose proof (resolved_kinetic b1 b2) as Hk. unfold kinetic in Hk.
  rewrite Hres in Hc1, Hc2, Hk. cbn [fst snd] in *.
  split.
  - apply Forall_insert; [|done]. by apply Forall_insert.
  - rewrite (total_insert_pair energy bs i j b1 b2); [done | lia | done..].
Qed.

Lemma tame_pass (balls : list Ball) :
  tame balls ->
  exists balls',
    collisions_checked balls = Ok balls'
    /\ tame balls' /\ length balls' = length balls.
Proof.
  intros Ht.
  pose proof (collisions_with_outcome collide_pair_checked tame
                (fun _ => False) balls) as Hout.
  fold collisions_checked in Hout.
  assert (Hgo : match collisions_checked balls with
                | Ok balls' => tame balls' /\ length balls' = length balls
                | Raise _ => False
                end).
  { apply Hout; [|done]. intros bs i j b1 b2 Hbs _ Hij H1 H2.
    by apply (tame_step bs i j). }
  destruct (collisions_checked balls) as [balls'|e]; [|done].
  by exists balls'.
Qed.

(** ** The degenerate pair and the errors of a pair *)






Lemma fresh_is_calm (b : Ball) : fresh_ball b -> calm b.
Proof.
  intros (Hr & [Hv0 Hv] & _). split; [by split|].
  assert (IZR V_MAX <= SPEED_BOUND).
  { unfold SPEED_BOUND. apply IZR_le. by vm_compute. }
  lra.
Qed.

(** ** A whole pass and a whole tick with the float power *)


Lemma tame_moved (balls : list Ball) : tame balls -> tame (map move balls).
Proof.
  intros [Hwf He]. split.
  - apply Forall_fmap. eapply Forall_impl; [exact Hwf|].
    intros b Hb. by apply move_wf.
  - change (map move balls) with (move <$> balls).
    rewrite total_fmap_same; [done|].
    intros b. unfold energy, m. by destruct (move_keeps_shape b) as [-> ->].
Qed.

Lemma tame_filter (P : Ball -> Prop) `{!forall b, Decision (P b)}
    (balls : list Ball) :
  tame balls -> tame (filter P balls).
Proof.
  intros [Hwf He]. split.
  - apply Forall_forall. intros b [_ Hb]%list_elem_of_filter.
    revert b Hb. by apply Forall_forall.
  - pose proof (total_filter_le energy P balls (wf_energy_nonneg _ Hwf)). lra.
Qed.

Lemma tick_checked_tame (balls : list Ball) :
  tame balls ->
  exists balls',
    tick_checked balls = Ok balls' /\ tick balls = Ok balls'
    /\ tame balls'
    /\ Forall inside balls'
    /\ shape <$> balls' `sublist_of` shape <$> balls.
Proof.
  intros Ht.
  destruct (tame_pass _ (tame_moved _ Ht)) as (mid & Hrun & Hmid & _).
  pose proof (collisions_checked_agrees _ _ Hrun) as Hplain.
  destruct (tick_run balls) as (mid' & Hrun' & Htick & Hs & _).
  rewrite Hplain in Hrun'. injection Hrun' as <-.
  eexists. split_and!.
  - unfold tick_checked. by rewrite Hrun.
  - exact Htick.
  - by apply tame_filter.
  - apply Forall_forall. intros b [Hb _]%list_elem_of_filter.
    apply is_outside_false_inside. by destruct (is_outside b).
  - rewrite <- Hs. apply fmap_sublist. apply sublist_filter.
Qed.

(** X10: over well-formed balls whose total kinetic energy is at most
    4 * 10^300 (a placement of up to a million balls is far below
    it, see [fresh_list_is_tame]) one tick of the
    main loop raises nothing; the balls it returns are again such a list,
    so that any number of ticks raises nothing; every returned ball has its
    centre on the screen, and the returned balls are some of the balls
    given, in the same order, with identifier, radius and colour
    unchanged. *)
Theorem tick_keeps_balls_on_screen (balls : list Ball) (n : nat) :
  Forall wf_ball balls -> total energy balls <= ENERGY_BOUND ->
  (exists balls',
     tick_checked balls = Ok balls' /\ tick balls = Ok balls'
     /\ Forall wf_ball balls' /\ total energy balls' <= ENERGY_BOUND
     /\ Forall inside balls'
     /\ shape <$> balls' `sublist_of` shape <$> balls)
  /\ (exists balls',
        ticks_checked n balls = Ok balls' /\ ticks n balls = Ok balls'
        /\ shape <$> balls' `sublist_of` shape <$> balls).
Proof.
  intros Hwf He. assert (Ht : tame balls) by done. clear Hwf He.
  split.
  - destruct (tick_checked_tame balls Ht)
      as (balls' & H1 & H2 & [Hw' He'] & Hin & Hsub).
    by exists balls'.
  - revert balls Ht. induction n as [|n IH]; intros balls Ht.
    + by exists balls.
    + destruct (tick_checked_tame balls Ht)
        as (balls1 & H1 & H2 & Ht1 & _ & Hsub1).
      destruct (IH balls1 Ht1) as (balls' & H3 & H4 & Hsub).
      exists balls'. cbn [ticks_checked ticks]. rewrite H1, H2. cbn.
      split_and!; [done | done |]. by etrans.
Qed.

Lemma example_tame : Forall wf_ball [ballA; ballB]
                     /\ total energy [ballA; ballB] <= ENERGY_BOUND.
Proof.
  split.
  - destruct example_wf as [Ha Hb].
    apply List.Forall_cons; [exact Ha|]. apply List.Forall_cons; [exact Hb|].
    apply List.Forall_nil.
  - destruct example_mass as [Hm1 Hm2].
    unfold total, energy, ENERGY_BOUND. cbn [foldr]. rewrite Hm1, Hm2.
    cbn [v ballA ballB].
    assert (100 <= SPEED_BOUND).
    { unfold SPEED_BOUND. apply IZR_le. by vm_compute. }
    nra.
Qed.

Lemma tick_keeps_balls_on_screen_witness :
  (exists balls',
     tick_checked [ballA; ballB] = Ok balls' /\ tick [ballA; ballB] = Ok balls'
     /\ Forall wf_ball balls' /\ total energy balls' <= ENERGY_BOUND
     /\ Forall inside balls'
     /\ shape <$> balls' `sublist_of` shape <$> [ballA; ballB])
  /\ (exists balls',
        ticks_checked 3 [ballA; ballB] = Ok balls'
        /\ ticks 3 [ballA; ballB] = Ok balls'
        /\ shape <$> balls' `sublist_of` shape <$> [ballA; ballB]).
Proof.
  apply (tick_keeps_balls_on_screen [ballA; ballB] 3).
  - exact (proj1 example_tame).
  - exact (proj2 example_tame).
Defined.

(** ** The balls of a placement are far below the energy bound *)

Lemma total_le_count (f : Ball -> R) (c : R) (balls : list Ball) :
  Forall (fun b => f b <= c) balls ->
  total f balls <= IZR (Z.of_nat (length balls)) * c.
Proof.
  induction 1 as [|b l Hb _ IH].
  - change (total f []) with 0. change (Z.of_nat (length (@nil Ball))) with 0%Z.
    lra.
  - rewrite total_cons, length_cons, Nat2Z.inj_succ, succ_IZR. lra.
Qed.

Lemma fresh_energy (b : Ball) : fresh_ball b -> energy b <= 31250000.
Proof.
  intros ([Hr1 Hr2] & [Hv0 Hv] & _). unfold energy, m.
  assert (Hm : 0 <= IZR (radius b ^ 3) <= 15625000).
  { assert (HR : R_MAX = 250%Z) by (by vm_compute).
    rewrite HR in Hr2. unfold R_MIN in Hr1.
    replace 15625000 with (IZR (250 ^ 3)) by (apply (f_equal IZR); by vm_compute).
    split; apply IZR_le; [by apply Z.pow_nonneg; lia|].
    apply Z.pow_le_mono_l. lia. }
  assert (HV : IZR V_MAX = 2) by (apply (f_equal IZR); by vm_compute).
  rewrite HV in Hv. assert (v b ^ 2 <= 4) by nra.
  assert (0 <= v b ^ 2) by apply pow2_ge_0. nra.
Qed.

Lemma fresh_list_is_tame (balls : list Ball) :
  Forall fresh_ball balls -> (Z.of_nat (length balls) <= 10 ^ 6)%Z ->
  tame balls.
Proof.
  intros Hf Hlen. split.
  - eapply Forall_impl; [exact Hf|]. intros b Hb.
    by destruct (fresh_is_calm b Hb).
  - assert (Hall : Forall (fun b => energy b <= 31250000) balls).
    { eapply Forall_impl; [exact Hf|]. apply fresh_energy. }
    pose proof (total_le_count energy _ balls Hall) as Ht.
    apply IZR_le in Hlen.
    assert (0 <= IZR (Z.of_nat (length balls))).
    { apply IZR_le. lia. }
    assert (IZR (10 ^ 6) * 31250000 <= ENERGY_BOUND).
    { unfold ENERGY_BOUND, SPEED_BOUND.
      replace 31250000 with (IZR 31250000) by done.
      replace 4 with (IZR 4) by done.
      rewrite pow_IZR, <- !mult_IZR. apply IZR_le. by vm_compute. }
    nra.
Qed.
